(** * higlass.viewer: the display bridge, the image helper and view composition

    A shallow embedding of [src/higlass/viewer.py]:
    - [save_b64_image_to_png] (lines 22-28),
    - the callback registry of [HiGlassDisplay]: [get_base64_img] and
      [_handle_js_events] (lines 63-83),
    - [display] (lines 107-165): tileset collection, deep copy of the views
      and the rewriting of the [server] entry of the copied tracks.

    Python objects that the code mutates (the [callbacks] dict, the [conf]
    dict of a track, the files on disk) live in explicit stores that are
    passed along; exceptions are values of an error monad. *)

From Stdlib Require Import ZArith Ascii String List Bool.
From stdpp Require Import gmap strings list fin_maps.

Local Open Scope Z_scope.

(** ** Python values and exceptions *)

Module Py.

(** Values as they come out of [json.loads] and as they sit in a track's
    [conf] dict.  [JNone] is Python's [None]. *)
#[local] Unset Elimination Schemes.
Inductive json : Type :=
| JNone
| JBool (b : bool)
| JNum (z : Z)
| JStr (s : string)
| JList (items : list json)
| JDict (fields : list (string * json)).
#[local] Set Elimination Schemes.

(** The exceptions the modelled code can meet.  [SystemExiting] stands for
    the [BaseException]s that are not [Exception]s ([KeyboardInterrupt],
    [SystemExit]); every other constructor is a subclass of [Exception]. *)
Inductive exn : Type :=
| KeyError (key : json)
| TypeError (msg : string)
| IndexError
| ValueError
| binascii_Error
| OSError (filename : string)
| UserException (msg : string)
| SystemExiting (msg : string).

Definition is_Exception (e : exn) : bool :=
  match e with
  | SystemExiting _ => false
  | _ => true
  end.

Inductive result (A : Type) : Type :=
| Ok (a : A)
| Raise (e : exn).
Arguments Ok {A} a.
Arguments Raise {A} e.

#[global] Instance result_ret : MRet result := @Ok.
#[global] Instance result_bind : MBind result := fun A B k r =>
  match r with
  | Ok a => k a
  | Raise e => Raise e
  end.

(** [d[k]] on a dict with string keys: the first binding of [k]. *)
Fixpoint assoc (k : string) (fields : list (string * json)) : option json :=
  match fields with
  | [] => None
  | (k', v) :: rest => if String.eqb k k' then Some v else assoc k rest
  end.

(** [v[k]] for a string subscript [k]. *)
Definition getitem (v : json) (k : string) : result json :=
  match v with
  | JDict fields =>
      match assoc k fields with
      | Some x => Ok x
      | None => Raise (KeyError (JStr k))
      end
  | JStr _ => Raise (TypeError "string indices must be integers")
  | JList _ => Raise (TypeError "list indices must be integers or slices")
  | _ => Raise (TypeError "object is not subscriptable")
  end.

(** [l[i]] on a list. *)
Definition list_getitem {A} (l : list A) (i : nat) : result A :=
  match nth_error l i with
  | Some x => Ok x
  | None => Raise IndexError
  end.

(** [s.split(sep)] for a one-character separator: every occurrence of
    [sep] ends a segment; the result is never empty. *)
Fixpoint split (sep : ascii) (s : string) : list string :=
  match s with
  | EmptyString => [EmptyString]
  | String c rest =>
      if Ascii.eqb c sep then EmptyString :: split sep rest
      else match split sep rest with
           | seg :: segs => String c seg :: segs
           | [] => [String c EmptyString]
           end
  end.

(** The characters of a [str] as code points. *)
Fixpoint ords (s : string) : list Z :=
  match s with
  | EmptyString => []
  | String c rest => Z.of_N (N_of_ascii c) :: ords rest
  end.

End Py.

Export Py.

(** ** The standard library's [base64.b64decode]

    [base64.b64decode(s)] with its default [validate=False]: a [str] is
    first encoded as ASCII ([ValueError] otherwise), then handed to
    [binascii.a2b_base64] in its lenient mode, which skips every character
    outside the alphabet.  Bytes are integers in [0, 255]. *)

Module Base64.

Definition BASE64_PAD : Z := 61.

Definition table_a2b_base64 (c : Z) : Z :=
  if (65 <=? c) && (c <=? 90) then c - 65
  else if (97 <=? c) && (c <=? 122) then c - 71
  else if (48 <=? c) && (c <=? 57) then c + 4
  else if c =? 43 then 62
  else if c =? 47 then 63
  else 255.

Definition u8 (z : Z) : Z := Z.land z 255.

Fixpoint a2b_loop (data : list Z) (quad_pos leftchar pads : Z)
    (bin_data : list Z) : result (list Z) :=
  match data with
  | [] => if quad_pos =? 0 then Ok bin_data else Raise binascii_Error
  | this_ch :: rest =>
      if this_ch =? BASE64_PAD then
        if (2 <=? quad_pos) && (4 <=? quad_pos + (pads + 1)) then Ok bin_data
        else a2b_loop rest quad_pos leftchar
               (if 2 <=? quad_pos then pads + 1 else pads) bin_data
      else
        let v := table_a2b_base64 this_ch in
        if 64 <=? v then a2b_loop rest quad_pos leftchar pads bin_data
        else if quad_pos =? 0 then a2b_loop rest 1 v 0 bin_data
        else if quad_pos =? 1 then
          a2b_loop rest 2 (Z.land v 15) 0
            (bin_data ++ [u8 (Z.lor (Z.shiftl leftchar 2) (Z.shiftr v 4))])
        else if quad_pos =? 2 then
          a2b_loop rest 3 (Z.land v 3) 0
            (bin_data ++ [u8 (Z.lor (Z.shiftl leftchar 4) (Z.shiftr v 2))])
        else
          a2b_loop rest 0 0 0
            (bin_data ++ [u8 (Z.lor (Z.shiftl leftchar 6) v)])
  end.

Definition a2b_base64 (data : list Z) : result (list Z) :=
  a2b_loop data 0 0 0 [].

Definition b64decode (s : string) : result (list Z) :=
  let data := ords s in
  if forallb (fun c => c <? 128) data then a2b_base64 data
  else Raise ValueError.

(** The standard base64 encoding of a byte string (RFC 4648 with padding),
    which is what [base64.b64encode] gives: three bytes become four
    characters of the alphabet; one or two bytes left over become two or
    three characters followed by [=] signs. *)
Definition table_b2a_base64 (v : Z) : Z :=
  if v <? 26 then v + 65
  else if v <? 52 then v + 71
  else if v <? 62 then v - 4
  else if v =? 62 then 43
  else 47.

Fixpoint b2a_base64 (bin_data : list Z) : list Z :=
  match bin_data with
  | [] => []
  | [b0] =>
      [table_b2a_base64 (Z.shiftr b0 2);
       table_b2a_base64 (Z.shiftl (Z.land b0 3) 4);
       BASE64_PAD; BASE64_PAD]
  | [b0; b1] =>
      [table_b2a_base64 (Z.shiftr b0 2);
       table_b2a_base64 (Z.lor (Z.shiftl (Z.land b0 3) 4) (Z.shiftr b1 4));
       table_b2a_base64 (Z.shiftl (Z.land b1 15) 2);
       BASE64_PAD]
  | b0 :: b1 :: b2 :: rest =>
      table_b2a_base64 (Z.shiftr b0 2)
      :: table_b2a_base64 (Z.lor (Z.shiftl (Z.land b0 3) 4) (Z.shiftr b1 4))
      :: table_b2a_base64 (Z.lor (Z.shiftl (Z.land b1 15) 2) (Z.shiftr b2 6))
      :: table_b2a_base64 (Z.land b2 63)
      :: b2a_base64 rest
  end.

(** The [str] with the given code points. *)
Fixpoint chrs (cs : list Z) : string :=
  match cs with
  | [] => EmptyString
  | c :: rest => String (ascii_of_N (Z.to_N c)) (chrs rest)
  end.

Definition b64encode (bin_data : list Z) : string :=
  chrs (b2a_base64 bin_data).

(** A byte string: every element in [0, 255]. *)
Definition is_bytes (bs : list Z) : Prop := Forall (fun b => 0 <= b < 256) bs.

(** [f] holds of every number below [n], of every pair of them. *)
Definition all_below (n : Z) (f : Z -> bool) : bool := forallb f (seqZ 0 n).

Definition all_pairs_below (n : Z) (f : Z -> Z -> bool) : bool :=
  all_below n (fun a => all_below n (f a)).

End Base64.

(** ** [save_b64_image_to_png] *)

Module Image.

(** The files on disk, by name, and the names that cannot be opened for
    writing. *)
Record filesystem : Type := Filesystem {
  files : gmap string (list Z);
  unwritable : gset string
}.

(** [with open(filename, "wb") as f: f.write(data)] *)
Definition open_wb_write (fs : filesystem) (filename : string)
    (data : list Z) : result filesystem :=
  if decide (filename ∈ unwritable fs) then Raise (OSError filename)
  else Ok {| files := <[filename := data]> (files fs);
             unwritable := unwritable fs |}.

Section Helper.
(** The decoder is the standard library's; the helper is stated over
    any decoder and run with [Base64.b64decode]. *)
Variable b64decode : string -> result (list Z).

Definition save_b64_image_to_png (fs : filesystem) (filename : string)
    (b64str : string) : result filesystem :=
  segment ← list_getitem (split "," b64str) 1;
  imgdata ← b64decode segment;
  open_wb_write fs filename imgdata.
End Helper.

(** What the specification calls the payload: everything that follows the
    first comma of the input, if it has one. *)
Fixpoint payload_after_first_comma (s : string) : option string :=
  match s with
  | EmptyString => None
  | String c rest =>
      if Ascii.eqb c "," then Some rest else payload_after_first_comma rest
  end.

(** The text of [s] up to its first comma, all of [s] if it has none. *)
Fixpoint before_comma (s : string) : string :=
  match s with
  | EmptyString => EmptyString
  | String c rest =>
      if Ascii.eqb c "," then EmptyString else String c (before_comma rest)
  end.

Fixpoint count_commas (s : string) : nat :=
  match s with
  | EmptyString => 0%nat
  | String c rest =>
      ((if Ascii.eqb c "," then 1 else 0) + count_commas rest)%nat
  end.

End Image.

(** ** The callback registry of [HiGlassDisplay] *)

Module Bridge.

(** One evaluation of line 79: the callable found under [inv_uuid] was
    applied to [inv_payload], and returned or raised. *)
Record invocation (callback : Type) : Type := Invocation {
  inv_uuid : json;
  inv_callback : callback;
  inv_payload : json;
  inv_result : result unit
}.
Arguments Invocation {callback}.
Arguments inv_uuid {callback}.
Arguments inv_callback {callback}.
Arguments inv_payload {callback}.
Arguments inv_result {callback}.

Inductive log_record : Type :=
| log_error (e : exn)
| log_exception (msg : string) (e : exn).

(** The widget instance together with what its callables can reach:
    [callbacks] is the dict [self.callbacks], [sent] the messages handed
    to [self.send] (oldest first), [logged] the records given to
    [self.log], and [env] the rest of the interpreter state that the
    callables read and write. *)
Record HiGlassDisplay (callback W : Type) : Type := Widget {
  callbacks : gmap string callback;
  sent : list json;
  logged : list log_record;
  env : W
}.
Arguments Widget {callback W}.
Arguments callbacks {callback W}.
Arguments sent {callback W}.
Arguments logged {callback W}.
Arguments env {callback W}.

(** [content["params"]["uuid"]] *)
Definition correlation_id (content : json) : result json :=
  params ← getitem content "params"; getitem params "uuid".

(** The callables stored in the registry.  [truthy cb] is [bool(cb)];
    [call cb x self] runs [cb(x)], which may read and change the widget
    (a callback is free to call [get_base64_img] again) and may raise. *)
Class Callables (callback W : Type) : Type := {
  truthy : callback -> bool;
  call : callback -> json -> HiGlassDisplay callback W ->
         result unit * HiGlassDisplay callback W
}.

Section Widget.
Context {callback W : Type} `{!Callables callback W}.

#[local] Abbreviation self_t := (HiGlassDisplay callback W).

(** A method body: it reads and updates the widget, may raise, and
    leaves behind the callback invocations it made. *)
Definition M (A : Type) : Type :=
  self_t -> list (invocation callback) * result A * self_t.

Definition ret {A} (a : A) : M A := fun self => ([], Ok a, self).

Definition bind {A B} (m : M A) (k : A -> M B) : M B := fun self =>
  match m self with
  | (tr, Ok a, self') =>
      match k a self' with
      | (tr', r, self'') => (tr ++ tr', r, self'')
      end
  | (tr, Raise e, self') => (tr, Raise e, self')
  end.

Definition lift {A} (r : result A) : M A := fun self => ([], r, self).

(** [try: body except Exception as e: handler(e)] *)
Definition try_except_Exception {A} (body : M A) (handler : exn -> M A)
    : M A := fun self =>
  match body self with
  | (tr, Ok a, self') => (tr, Ok a, self')
  | (tr, Raise e, self') =>
      if is_Exception e then
        match handler e self' with
        | (tr', r, self'') => (tr ++ tr', r, self'')
        end
      else (tr, Raise e, self')
  end.

(** [self.callbacks[k]]: the keys are the strings drawn by
    [slugid.nice()]; lists and dicts are unhashable. *)
Definition callbacks_getitem (k : json) : M callback := fun self =>
  match k with
  | JStr u =>
      match callbacks self !! u with
      | Some cb => ([], Ok cb, self)
      | None => ([], Raise (KeyError k), self)
      end
  | JList _ | JDict _ => ([], Raise (TypeError "unhashable type"), self)
  | _ => ([], Raise (KeyError k), self)
  end.

(** [self.callbacks[uuid] = callback] *)
Definition callbacks_setitem (uuid : string) (cb : callback) : M unit :=
  fun self =>
    ([], Ok tt, Widget (<[uuid := cb]> (callbacks self)) (sent self)
                  (logged self) (env self)).

(** [del self.callbacks[k]] *)
Definition callbacks_delitem (k : json) : M unit := fun self =>
  match k with
  | JStr u =>
      match callbacks self !! u with
      | Some _ =>
          ([], Ok tt, Widget (delete u (callbacks self)) (sent self)
                        (logged self) (env self))
      | None => ([], Raise (KeyError k), self)
      end
  | JList _ | JDict _ => ([], Raise (TypeError "unhashable type"), self)
  | _ => ([], Raise (KeyError k), self)
  end.

(** [self.send(json.dumps(msg))] *)
Definition send (msg : json) : M unit := fun self =>
  ([], Ok tt, Widget (callbacks self) (sent self ++ [msg]) (logged self)
                (env self)).

Definition log (r : log_record) : M unit := fun self =>
  ([], Ok tt, Widget (callbacks self) (sent self) (logged self ++ [r])
                (env self)).

(** [f(x)] for a callable [f] taken from the registry under key [k]. *)
Definition invoke (k : json) (f : callback) (x : json) : M unit :=
  fun self =>
    match call f x self with
    | (r, self') => ([Invocation k f x r], r, self')
    end.

Definition params_uuid (content : json) : M json :=
  lift (correlation_id content).

(** [get_base64_img] (lines 69-74); [uuid] is the value drawn by
    [slugid.nice()]. *)
Definition get_base64_img (uuid : string) (callback_ : callback) : M unit :=
  bind (callbacks_setitem uuid callback_) (fun _ =>
  send (JDict [("request"%string, JStr "save_as_png");
               ("params"%string, JDict [("uuid"%string, JStr uuid)])])).

(** The body of the [try] (lines 78-80). *)
Definition handle_body (content : json) : M unit :=
  bind (params_uuid content) (fun k =>
  bind (callbacks_getitem k) (fun cb =>
  if truthy cb then
    bind (params_uuid content) (fun k1 =>
    bind (callbacks_getitem k1) (fun f =>
    bind (lift (getitem content "imgData")) (fun imgData =>
    bind (invoke k1 f imgData) (fun _ =>
    bind (params_uuid content) (fun k2 =>
    callbacks_delitem k2)))))
  else ret tt)).

(** [_handle_js_events] (lines 76-83). *)
Definition _handle_js_events (content : json) : M unit :=
  try_except_Exception (handle_body content) (fun e =>
    bind (log (log_error e)) (fun _ =>
    log (log_exception "Unhandled exception while handling msg" e))).

(** What reaches the widget: calls of [get_base64_img] by the host and
    messages from the frontend. *)
Inductive event : Type :=
| Request (uuid : string) (cb : callback)
| Deliver (content : json).

Definition step (ev : event) : M unit :=
  match ev with
  | Request uuid cb => get_base64_img uuid cb
  | Deliver content => _handle_js_events content
  end.

(** The events one after the other, each one a call of its own: the
    invocations made, in order, and the widget at the end. *)
Fixpoint run (evs : list event) (self : self_t)
    : list (invocation callback) * self_t :=
  match evs with
  | [] => ([], self)
  | ev :: rest =>
      match step ev self with
      | (tr, _, self') =>
          match run rest self' with
          | (tr', self'') => (tr ++ tr', self'')
          end
      end
  end.

(** [__init__] (lines 63-67): an empty registry. *)
Definition init (w : W) : self_t := Widget ∅ [] [] w.

(** The two records the [except] clause writes, and the widget with more
    log records or with another registry. *)
Definition caught (e : exn) : list log_record :=
  [log_error e; log_exception "Unhandled exception while handling msg" e].

Definition with_logged (self : self_t) (rs : list log_record) : self_t :=
  Widget (callbacks self) (sent self) (logged self ++ rs) (env self).

Definition with_callbacks (self : self_t) (m : gmap string callback) : self_t :=
  Widget m (sent self) (logged self) (env self).

(** The ids of the requests among the events. *)
Definition request_ids (evs : list event) : list string :=
  omap (fun ev => match ev with Request u _ => Some u | Deliver _ => None end)
    evs.

(** The callables leave the registry as they found it. *)
Definition registry_preserving : Prop :=
  ∀ (cb : callback) (x : json) (self : self_t),
    callbacks (call cb x self).2 = callbacks self.

(** The callables send nothing to the frontend. *)
Definition sent_preserving : Prop :=
  ∀ (cb : callback) (x : json) (self : self_t),
    sent (call cb x self).2 = sent self.

End Widget.

(** The message of a [save_as_png] request (line 74). *)
Definition request_message (uuid : string) : json :=
  JDict [("request"%string, JStr "save_as_png");
         ("params"%string, JDict [("uuid"%string, JStr uuid)])].

(** A reply of the frontend to a [save_as_png] request. *)
Definition reply (uuid : string) (imgData : json) : json :=
  JDict [("params"%string, JDict [("uuid"%string, JStr uuid)]);
         ("imgData"%string, imgData)].

(** Callables for the scenarios below.  A [probe] is named after a request
    id and notes in [env] whether that id is in the registry when it runs;
    a [failing] callable raises. *)
Inductive scenario_callback : Type :=
| probe (uuid : string)
| failing (msg : string).

Definition scenario_callables : Callables scenario_callback (list bool) := {|
  truthy := fun _ => true;
  call := fun cb _ self =>
    match cb with
    | probe u =>
        (Ok tt, Widget (callbacks self) (sent self) (logged self)
                  (env self ++ [bool_decide (is_Some (callbacks self !! u))]))
    | failing msg => (Raise (UserException msg), self)
    end
|}.

(** More callables: [falsy] is an object whose [bool] is [False];
    [interrupted] raises [KeyboardInterrupt]; [renewing u] asks for another
    image under the id [u] with itself as the callback. *)
Inductive edge_callback : Type :=
| falsy
| interrupted
| renewing (uuid : string).

Definition edge_callables : Callables edge_callback unit := {|
  truthy := fun cb => match cb with falsy => false | _ => true end;
  call := fun cb _ self =>
    match cb with
    | falsy => (Ok tt, self)
    | interrupted => (Raise (SystemExiting "KeyboardInterrupt"), self)
    | renewing u => (Ok tt, (get_base64_img u (renewing u) self).2)
    end
|}.

End Bridge.

(** ** [display]: tilesets, deep copy and server addresses *)

Module Compose.

(** A [conf] dict is a mutable object; tracks hold a reference to theirs. *)
Definition loc : Type := positive.

(** The store of [conf] dicts. *)
Abbreviation heap := (gmap loc (gmap string json)).

(** Modelled from the spec: the classes [Track], [CombinedTrack] and [View]
    of [higlass/client.py] and the tileset objects, none of which is under
    [src/].  A track has a configuration map and may carry a tileset
    reference; a composite track ([CombinedTrack], the one class with a
    [tracks] attribute) has an ordered sequence of child tracks; a view is
    an ordered sequence of tracks plus layout attributes.  A tileset is
    known by its unique id.  [display] never assigns an attribute of a
    track or a view, so these are values; the [conf] dicts it writes to are
    in the store. *)
Definition Tileset : Type := string.

#[local] Unset Elimination Schemes.
Inductive Track : Type :=
| PlainTrack (conf : loc) (tileset : option Tileset)
| CombinedTrack (conf : loc) (tileset : option Tileset) (tracks : list Track).
#[local] Set Elimination Schemes.

Record View : Type := mkView {
  tracks : list Track;
  layout : json
}.

Definition conf (track : Track) : loc :=
  match track with
  | PlainTrack c _ => c
  | CombinedTrack c _ _ => c
  end.

Definition tileset (track : Track) : option Tileset :=
  match track with
  | PlainTrack _ ts => ts
  | CombinedTrack _ ts _ => ts
  end.

(** [tilesets += [track.tileset]] under [if track.tileset:] *)
Definition add_tileset (tilesets : list Tileset) (track : Track)
    : list Tileset :=
  match tileset track with
  | Some ts => tilesets ++ [ts]
  | None => tilesets
  end.

(** The body of the loop over [view.tracks] (lines 128-134). *)
Definition collect_track (tilesets : list Tileset) (track : Track)
    : list Tileset :=
  let tilesets1 :=
    match track with
    | CombinedTrack _ _ tracks1 => fold_left add_tileset tracks1 tilesets
    | PlainTrack _ _ => tilesets
    end in
  add_tileset tilesets1 track.

(** Lines 124-134. *)
Definition collect_tilesets (views : list View) : list Tileset :=
  fold_left (fun tilesets view => fold_left collect_track (tracks view) tilesets)
    views [].

(** The extraction as the specification words it: a composite track
    contributes what its children contribute, recursively; a leaf
    contributes its tileset reference if it has one. *)
Fixpoint extractTilesets_track (track : Track) : list Tileset :=
  match track with
  | PlainTrack _ ts => option_list ts
  | CombinedTrack _ _ children => children ≫= extractTilesets_track
  end.

Definition extractTilesets (views : list View) : list Tileset :=
  views ≫= fun view => tracks view ≫= extractTilesets_track.

(** What one top-level track adds to [tilesets]: the references of its
    direct children, in order, then its own. *)
Definition direct_tilesets (track : Track) : list Tileset :=
  match track with
  | PlainTrack _ ts => option_list ts
  | CombinedTrack _ ts children => omap tileset children ++ option_list ts
  end.

Definition is_leaf (track : Track) : bool :=
  match track with
  | PlainTrack _ _ => true
  | CombinedTrack _ _ _ => false
  end.

(** Composite tracks hold leaves only and carry no tileset themselves. *)
Definition shallow_track (track : Track) : bool :=
  match track with
  | PlainTrack _ _ => true
  | CombinedTrack _ None children => forallb is_leaf children
  | CombinedTrack _ (Some _) _ => false
  end.

Definition shallow (views : list View) : bool :=
  forallb (fun view => forallb shallow_track (tracks view)) views.

(** Modelled from the spec: [View.from_dict(view.to_dict())], whose two
    methods are in [higlass/client.py], not under [src/].  The copy is
    deep: every track, every child of a composite track and every
    configuration map is a new object; the configuration map of a copied
    track starts with the content of the original's. *)
Fixpoint clone_track (h : heap) (track : Track) : heap * Track :=
  let c := fresh (dom h) in
  let h1 := <[c := default ∅ (h !! conf track)]> h in
  match track with
  | PlainTrack _ ts => (h1, PlainTrack c ts)
  | CombinedTrack _ ts children =>
      let fix clone_list (h : heap) (ts : list Track) : heap * list Track :=
        match ts with
        | [] => (h, [])
        | t :: rest =>
            let (h', t') := clone_track h t in
            let (h'', rest') := clone_list h' rest in
            (h'', t' :: rest')
        end in
      let (h2, children') := clone_list h1 children in
      (h2, CombinedTrack c ts children')
  end.

Fixpoint clone_tracks (h : heap) (ts : list Track) : heap * list Track :=
  match ts with
  | [] => (h, [])
  | t :: rest =>
      let (h', t') := clone_track h t in
      let (h'', rest') := clone_tracks h' rest in
      (h'', t' :: rest')
  end.

Fixpoint clone_views (h : heap) (views : list View) : heap * list View :=
  match views with
  | [] => (h, [])
  | view :: rest =>
      let (h', ts) := clone_tracks h (tracks view) in
      let (h'', rest') := clone_views h' rest in
      (h'', mkView ts (layout view) :: rest')
  end.

(** ["server" not in conf or conf["server"] is None] *)
Definition lacks_server (c : gmap string json) : bool :=
  match c !! "server"%string with
  | None => true
  | Some JNone => true
  | Some _ => false
  end.

(** Lines 145-146 and 148-149: the guarded assignment to
    [track.conf["server"]]. *)
Definition set_server (address : string) (h : heap) (track : Track) : heap :=
  match h !! conf track with
  | Some c =>
      if lacks_server c
      then <[conf track := <["server"%string := JStr address]> c]> h
      else h
  | None => h
  end.

(** The body of the loop over [view.tracks] (lines 143-149). *)
Definition rewrite_track (address : string) (h : heap) (track : Track) : heap :=
  match track with
  | CombinedTrack _ _ tracks1 => fold_left (set_server address) tracks1 h
  | PlainTrack _ _ => set_server address h track
  end.

(** Lines 141-149. *)
Definition rewrite_views (address : string) (h : heap) (cloned_views : list View)
    : heap :=
  fold_left (fun h view => fold_left (rewrite_track address) (tracks view) h)
    cloned_views h.

(** What [display] hands back: the views of the [ViewConf] it builds (and
    of the widget's [viewconf]), and the server with the tilesets it was
    given and its address. *)
Record displayed : Type := Displayed {
  viewconf_views : list View;
  server_tilesets : list Tileset;
  api_address : string
}.

Section Display.
(** [Server(tilesets, ...)] followed by [server.start(...)]: the address
    the backend answers at, or the exception it raised.  The class is in
    [higlass/server.py]. *)
Variable start_server : list Tileset -> result string.

(** [display] (lines 107-165). *)
Definition display (views : list View) (h : heap) : result displayed * heap :=
  let tilesets := collect_tilesets views in
  match start_server tilesets with
  | Raise e => (Raise e, h)
  | Ok address =>
      let (h1, cloned_views) := clone_views h views in
      let h2 := rewrite_views address h1 cloned_views in
      (Ok (Displayed cloned_views tilesets address), h2)
  end.
End Display.

(** The [conf] dicts reachable from a track, a view, a collection. *)
Fixpoint track_locs (track : Track) : list loc :=
  match track with
  | PlainTrack c _ => [c]
  | CombinedTrack c _ children => c :: (children ≫= track_locs)
  end.

Definition views_locs (views : list View) : list loc :=
  views ≫= fun view => tracks view ≫= track_locs.

(** The tracks that lines 141-149 look at: the top-level tracks that are
    not composite, and the children of the top-level composite tracks. *)
Definition addressed (track : Track) : list Track :=
  match track with
  | CombinedTrack _ _ tracks1 => tracks1
  | PlainTrack _ _ => [track]
  end.

Definition addressed_tracks (views : list View) : list Track :=
  views ≫= fun view => tracks view ≫= addressed.

(** The [conf] dicts of the tracks that lines 141-149 look at. *)
Definition addressed_locs (views : list View) : list loc :=
  conf <$> addressed_tracks views.

(** [conf["server"]] as a lookup: [None] when the dict has no such key. *)
Definition server_of (h : heap) (track : Track) : option json :=
  h !! conf track ≫= fun c => c !! "server"%string.

(** [conf] after [conf["server"] = address]. *)
Definition with_server (address : string) (c : gmap string json)
    : gmap string json :=
  <["server"%string := JStr address]> c.

(** A [conf] dict once the guarded assignment has been through it. *)
Definition settled (address : string) (c : gmap string json)
    : gmap string json :=
  if lacks_server c then with_server address c else c.

(** From [h] to [h']: every [conf] dict is as it was, or it lacked a server
    and was given [address]. *)
Definition assigns (address : string) (h h' : heap) : Prop :=
  ∀ l, h' !! l = h !! l
       ∨ ∃ c, h !! l = Some c ∧ lacks_server c = true
              ∧ h' !! l = Some (with_server address c).

(** What a copy does to the store: the dicts of [h] are in [h'] as they
    were, and [locs], the dicts of the copy, are new, in [h'], and
    pairwise distinct. *)
Definition copied (h h' : heap) (locs : list loc) : Prop :=
  h ⊆ h' ∧ (∀ l, l ∈ locs → (l ∉ dom h) ∧ (l ∈ dom h')) ∧ NoDup locs.

(** Views and tracks for the scenarios below. *)
Definition nested_view : View :=
  mkView [CombinedTrack 1%positive None
            [CombinedTrack 2%positive None [PlainTrack 3%positive (Some "T1"%string)]]] JNone.

Definition mixed_view : View :=
  mkView [CombinedTrack 1%positive None
            [PlainTrack 2%positive (Some "T1"%string); PlainTrack 3%positive None;
             PlainTrack 4%positive (Some "T2"%string)];
          PlainTrack 5%positive (Some "T3"%string)] JNone.

(** A backend that starts and answers at [localhost:8989]. *)
Definition local_backend : list Tileset → result string :=
  fun _ => Ok "localhost:8989"%string.

Definition mixed_heap : heap :=
  {[ 1%positive := ∅; 2%positive := ∅;
     3%positive := {[ "server"%string := JNone ]};
     4%positive := {[ "server"%string := JStr "" ]};
     5%positive := {[ "server"%string := JStr "external:9000" ]} ]}.

End Compose.

(** ** [view]: a view over tilesets *)

Module ViewFn.

(** Modelled from the spec: the tileset objects that [view] is given (the
    class is in [higlass/tilesets.py], not under [src/]): a unique id and,
    optionally, the track type and the track position to show the tileset
    with. *)
Record tileset_hints : Type := TilesetHints {
  uuid : string;
  track_type : option string;
  track_position : option string
}.

Section View.
(** The objects [view] works with are in [higlass/client.py] and
    [higlass/server.py]: [V] is a [View] object, [View_new] is [View()],
    [add_track v track_type position api_url tileset_uuid] is
    [v.add_track(track_type, position, api_url=..., tileset_uuid=...)],
    which may raise, and [start_server tilesets] is [Server()] followed by
    [server.start(tilesets)], giving the server's [api_address]. *)
Variable V : Type.
Variable View_new : V.
Variable add_track : V → string → string → string → string → result V.
Variable start_server : list tileset_hints → result string.

(** The body of the loop (lines 187-193). *)
Definition add_hinted (api_address : string) (curr_view : V)
    (ts : tileset_hints) : result V :=
  match track_type ts, track_position ts with
  | Some type_, Some position =>
      add_track curr_view type_ position api_address (uuid ts)
  | _, _ => Ok curr_view
  end.

(** The loop (lines 186-193); it ends at the first exception. *)
Fixpoint add_tracks (api_address : string) (curr_view : V)
    (tilesets : list tileset_hints) : result V :=
  match tilesets with
  | [] => Ok curr_view
  | ts :: rest =>
      curr_view' ← add_hinted api_address curr_view ts;
      add_tracks api_address curr_view' rest
  end.

(** [view] (lines 168-196): the view and the address of its server. *)
Definition view (tilesets : list tileset_hints) : result (V * string) :=
  api_address ← start_server tilesets;
  curr_view ← add_tracks api_address View_new tilesets;
  Ok (curr_view, api_address).

End View.

(** A tileset has both hints. *)
Definition hinted (ts : tileset_hints) : bool :=
  match track_type ts, track_position ts with
  | Some _, Some _ => true
  | _, _ => false
  end.

(** A view as the list of the tracks added to it, for the scenarios. *)
Definition listed_add_track (v : list (string * string * string * string))
    (type_ position api_url tileset_uuid : string)
    : result (list (string * string * string * string)) :=
  Ok (v ++ [(type_, position, api_url, tileset_uuid)]).

End ViewFn.

(** * Properties *)

(** ** The image helper *)

Module ImageFacts.
Import Image.

Lemma split_after_first_comma (s payload : string) :
  payload_after_first_comma s = Some payload →
  ∃ seg, split "," s = seg :: split "," payload.
Proof.
  induction s as [|c rest IH]; simpl; [done|].
  destruct (Ascii.eqb c ",").
  - intros [= ->]. by eauto.
  - intros H. destruct (IH H) as [seg ->]. by eauto.
Qed.

Lemma payload_iff_comma (s : string) :
  is_Some (payload_after_first_comma s) ↔ (1 ≤ count_commas s)%nat.
Proof.
  induction s as [|c rest IH]; simpl.
  - split; [by intros [? ?]|lia].
  - destruct (Ascii.eqb c ","); [|by rewrite IH].
    split; [lia|by eauto].
Qed.

Lemma payload_commas (s payload : string) :
  payload_after_first_comma s = Some payload →
  count_commas s = S (count_commas payload).
Proof.
  induction s as [|c rest IH]; simpl; [done|].
  destruct (Ascii.eqb c ","); [by intros [= ->]|done].
Qed.

Lemma split_head (s : string) :
  ∃ segs, split "," s = before_comma s :: segs.
Proof.
  induction s as [|c rest [segs IH]]; simpl; [by eauto|].
  destruct (Ascii.eqb c ","); [by eauto|].
  rewrite IH. by eauto.
Qed.

Lemma before_comma_no_comma (s : string) :
  count_commas s = 0%nat → before_comma s = s.
Proof.
  induction s as [|c rest IH]; simpl; [done|].
  destruct (Ascii.eqb c ","); [done|].
  intros H. by rewrite IH.
Qed.

Lemma second_segment (s payload : string) :
  payload_after_first_comma s = Some payload →
  list_getitem (split "," s) 1 = Ok (before_comma payload).
Proof.
  intros [seg ->]%split_after_first_comma.
  by destruct (split_head payload) as [segs ->].
Qed.

Example b64_AAAA : Base64.b64decode "AAAA" = Ok [0; 0; 0].
Proof. reflexivity. Qed.

Example b64_padded : Base64.b64decode "/w==" = Ok [255].
Proof. reflexivity. Qed.

Example b64_hello :
  Base64.b64decode "aGVsbG8=" = Ok [104; 101; 108; 108; 111].
Proof. reflexivity. Qed.

Example b64_skips_comma :
  Base64.b64decode "AAAA,/w==" = Ok [0; 0; 0; 255].
Proof. reflexivity. Qed.

Example b64_incomplete : Base64.b64decode "A" = Raise binascii_Error.
Proof. reflexivity. Qed.

Example no_comma_IndexError (fs : filesystem) :
  save_b64_image_to_png Base64.b64decode fs "out.png" "AAAA" = Raise IndexError.
Proof. reflexivity. Qed.

(** C8, as stated, fails.  The input has two commas: the helper decodes
    only the text between them ([AAAA], three zero bytes) and writes that,
    while the payload after the first comma ([AAAA,/w==]) decodes to four
    bytes. *)
Lemma save_b64_image_to_png_second_comma :
  let fs := Filesystem ∅ ∅ in
  let b64str := "data:image/png;base64,AAAA,/w=="%string in
  payload_after_first_comma b64str = Some "AAAA,/w=="%string ∧
  Base64.b64decode "AAAA,/w==" = Ok [0; 0; 0; 255] ∧
  save_b64_image_to_png Base64.b64decode fs "out.png" b64str
    = Ok (Filesystem {[ "out.png"%string := [0; 0; 0] ]} ∅) ∧
  save_b64_image_to_png Base64.b64decode fs "out.png" b64str
    ≠ (imgdata ← Base64.b64decode "AAAA,/w=="; open_wb_write fs "out.png" imgdata).
Proof.
  repeat split; try reflexivity.
  vm_compute. intros [=].
Qed.

(** C8, amended: for every decoder, file system, filename and input with at
    least one comma, the input has a payload after its first comma, and
    the helper decodes the text of this payload up to the next comma (the
    end of the input when there is none) and opens the file and writes the
    decoded bytes; it raises what the decoder or [open] raises.  With
    exactly one comma in the input that text is the whole payload.  When
    decoding and opening succeed the file holds exactly the decoded bytes
    and no other file changes.  With the standard decoder the input
    [data:image/png;base64,AAAA] writes the three bytes of [AAAA]. *)
Theorem save_b64_image_to_png_segment
    (b64decode : string → result (list Z)) (fs : filesystem)
    (filename b64str : string) :
  (1 ≤ count_commas b64str)%nat →
  ∃ payload,
    payload_after_first_comma b64str = Some payload
    ∧ save_b64_image_to_png b64decode fs filename b64str
      = (imgdata ← b64decode (before_comma payload);
         open_wb_write fs filename imgdata)
    ∧ (count_commas b64str = 1%nat → before_comma payload = payload)
    ∧ (∀ imgdata,
         b64decode (before_comma payload) = Ok imgdata →
         filename ∉ unwritable fs →
         ∃ fs', save_b64_image_to_png b64decode fs filename b64str = Ok fs'
                ∧ files fs' !! filename = Some imgdata
                ∧ ∀ other, other ≠ filename →
                    files fs' !! other = files fs !! other)
    ∧ save_b64_image_to_png Base64.b64decode fs filename
        "data:image/png;base64,AAAA" = open_wb_write fs filename [0; 0; 0].
Proof.
  intros [payload Hpayload]%payload_iff_comma. exists payload.
  split; [exact Hpayload|].
  assert (Hsave : save_b64_image_to_png b64decode fs filename b64str
    = (imgdata ← b64decode (before_comma payload);
       open_wb_write fs filename imgdata)).
  { unfold save_b64_image_to_png. by rewrite (second_segment _ _ Hpayload). }
  split; [exact Hsave|]. split; [|split].
  - intros Hone. apply before_comma_no_comma.
    apply payload_commas in Hpayload. lia.
  - intros imgdata Hdec Hw. rewrite Hsave, Hdec. simpl.
    unfold open_wb_write. rewrite decide_False by done.
    eexists. split; [done|]. simpl. split.
    + apply lookup_insert_eq.
    + intros other Hne. by apply lookup_insert_ne.
  - reflexivity.
Qed.

Lemma save_b64_image_to_png_segment_witness :
  (1 ≤ count_commas "data:image/png;base64,AAAA")%nat
  ∧ ∃ payload,
      payload_after_first_comma "data:image/png;base64,AAAA" = Some payload
      ∧ save_b64_image_to_png Base64.b64decode (Filesystem ∅ ∅) "out.png"
          "data:image/png;base64,AAAA"
        = (imgdata ← Base64.b64decode (before_comma payload);
           open_wb_write (Filesystem ∅ ∅) "out.png" imgdata).
Proof.
  assert (Hcomma : (1 ≤ count_commas "data:image/png;base64,AAAA")%nat).
  { vm_compute. lia. }
  split; [exact Hcomma|].
  destruct (save_b64_image_to_png_segment Base64.b64decode (Filesystem ∅ ∅)
              "out.png" "data:image/png;base64,AAAA" Hcomma)
    as (payload & Hpayload & Hsave & _).
  exists payload. split; [exact Hpayload|exact Hsave].
Defined.

(** *** Further properties of the helper *)

Lemma split_without_comma (s : string) :
  count_commas s = 0%nat → split "," s = [s].
Proof.
  induction s as [|c rest IH]; simpl; [done|].
  destruct (Ascii.eqb c ","); [done|].
  intros H. by rewrite IH.
Qed.

(** X18: an input without a comma makes the helper raise [IndexError],
    whatever the decoder; no file is opened. *)
Theorem save_without_comma_raises (b64decode : string → result (list Z))
    (fs : filesystem) (filename b64str : string) :
  count_commas b64str = 0%nat →
  save_b64_image_to_png b64decode fs filename b64str = Raise IndexError.
Proof.
  intros Hnone. unfold save_b64_image_to_png.
  by rewrite (split_without_comma _ Hnone).
Qed.

Lemma save_without_comma_raises_witness :
  save_b64_image_to_png Base64.b64decode (Filesystem ∅ ∅) "out.png"
    "iVBORw0KGgo=" = Raise IndexError.
Proof.
  apply (save_without_comma_raises Base64.b64decode (Filesystem ∅ ∅)
           "out.png" "iVBORw0KGgo="). reflexivity.
Defined.

(** X19: the payload is decoded before the file is opened.  When the
    decoder raises, the helper raises the same exception and the file is
    neither created nor emptied, whether it could be written or not; when
    the decoder succeeds and the file cannot be opened for writing, the
    helper raises [OSError]. *)
Theorem save_decodes_before_open (b64decode : string → result (list Z))
    (fs : filesystem) (filename b64str payload : string) :
  payload_after_first_comma b64str = Some payload →
  (∀ e, b64decode (before_comma payload) = Raise e →
     save_b64_image_to_png b64decode fs filename b64str = Raise e)
  ∧ (∀ imgdata, b64decode (before_comma payload) = Ok imgdata →
       filename ∈ unwritable fs →
       save_b64_image_to_png b64decode fs filename b64str
       = Raise (OSError filename)).
Proof.
  intros Hpayload. unfold save_b64_image_to_png.
  rewrite (second_segment _ _ Hpayload). simpl. split.
  - by intros e ->.
  - intros imgdata -> Hw. simpl. unfold open_wb_write.
    by rewrite decide_True.
Qed.

Lemma save_decodes_before_open_witness :
  save_b64_image_to_png Base64.b64decode (Filesystem ∅ {[ "out.png"%string ]})
    "out.png" "data:image/png;base64,A" = Raise binascii_Error
  ∧ save_b64_image_to_png Base64.b64decode
      (Filesystem ∅ {[ "out.png"%string ]}) "out.png"
      "data:image/png;base64,AAAA" = Raise (OSError "out.png").
Proof.
  split.
  - apply (save_decodes_before_open Base64.b64decode
             (Filesystem ∅ {[ "out.png"%string ]}) "out.png"
             "data:image/png;base64,A" "A"); reflexivity.
  - apply (proj2 (save_decodes_before_open Base64.b64decode
             (Filesystem ∅ {[ "out.png"%string ]}) "out.png"
             "data:image/png;base64,AAAA" "AAAA" eq_refl) [0; 0; 0]).
    + reflexivity.
    + simpl. by apply elem_of_singleton_2.
Defined.

Lemma save_Ok_inv (b64decode : string → result (list Z)) (fs fs' : filesystem)
    (filename b64str : string) :
  save_b64_image_to_png b64decode fs filename b64str = Ok fs' →
  ∃ imgdata,
    (filename ∉ unwritable fs)
    ∧ fs' = Filesystem (<[filename := imgdata]> (files fs)) (unwritable fs)
    ∧ ∀ fs0, save_b64_image_to_png b64decode fs0 filename b64str
             = open_wb_write fs0 filename imgdata.
Proof.
  unfold save_b64_image_to_png.
  destruct (list_getitem (split "," b64str) 1) as [segment|e]; [|done].
  simpl. destruct (b64decode segment) as [imgdata|e]; [|done].
  simpl. unfold open_wb_write at 1.
  destruct (decide (filename ∈ unwritable fs)) as [|Hw]; [done|].
  intros [= <-]. by exists imgdata.
Qed.

(** X20: the helper replaces the content of the file.  After a successful
    save, saving another image under the same name gives what saving this
    image alone would have given (no trace of the first one), and saves
    under two different names can be made in either order. *)
Theorem save_last_write_wins (b64decode : string → result (list Z))
    (fs fs1 : filesystem) (filename b64str1 b64str2 : string) :
  save_b64_image_to_png b64decode fs filename b64str1 = Ok fs1 →
  save_b64_image_to_png b64decode fs1 filename b64str2
  = save_b64_image_to_png b64decode fs filename b64str2
  ∧ ∀ other fs2, other ≠ filename →
      save_b64_image_to_png b64decode fs1 other b64str2 = Ok fs2 →
      ∃ fs3, save_b64_image_to_png b64decode fs other b64str2 = Ok fs3
             ∧ save_b64_image_to_png b64decode fs3 filename b64str1 = Ok fs2.
Proof.
  intros (d1 & Hw1 & -> & Hsave1)%save_Ok_inv. split.
  - unfold save_b64_image_to_png.
    destruct (list_getitem (split "," b64str2) 1) as [segment|e]; [|done].
    simpl. destruct (b64decode segment) as [d2|e]; [|done].
    simpl. unfold open_wb_write. simpl.
    destruct (decide (filename ∈ unwritable fs)); [done|].
    by rewrite insert_insert_eq.
  - intros other fs2 Hne (d2 & Hw2 & -> & Hsave2)%save_Ok_inv.
    simpl in *. rewrite Hsave2. unfold open_wb_write at 1.
    rewrite decide_False by done. eexists. split; [done|].
    rewrite Hsave1. unfold open_wb_write. simpl.
    rewrite decide_False by done. by rewrite insert_insert_ne.
Qed.

Lemma save_last_write_wins_witness :
  save_b64_image_to_png Base64.b64decode
    (Filesystem {[ "out.png"%string := [0; 0; 0] ]} ∅) "out.png" "x,/w=="
  = save_b64_image_to_png Base64.b64decode (Filesystem ∅ ∅) "out.png" "x,/w==".
Proof.
  apply (save_last_write_wins Base64.b64decode (Filesystem ∅ ∅)
           (Filesystem {[ "out.png"%string := [0; 0; 0] ]} ∅)
           "out.png" "x,AAAA" "x,/w=="). reflexivity.
Defined.

End ImageFacts.

(** ** The callback registry *)

Module BridgeFacts.
Import Bridge.

Lemma getitem_raises_Exception (v : json) (k : string) (e : exn) :
  getitem v k = Raise e → is_Exception e = true.
Proof.
  destruct v; simpl; try (by intros [= <-]).
  destruct (assoc k fields); [done|by intros [= <-]].
Qed.

Lemma correlation_id_raises_Exception (content : json) (e : exn) :
  correlation_id content = Raise e → is_Exception e = true.
Proof.
  unfold correlation_id.
  destruct (getitem content "params") as [params|e'] eqn:Hp; simpl.
  - apply getitem_raises_Exception.
  - intros [= <-]. by apply getitem_raises_Exception in Hp.
Qed.

Lemma correlation_id_reply (uuid : string) (imgData : json) :
  correlation_id (reply uuid imgData) = Ok (JStr uuid)
  ∧ getitem (reply uuid imgData) "imgData" = Ok imgData.
Proof. done. Qed.

Section Facts.
Context {callback W : Type} `{!Callables callback W}.

#[local] Abbreviation self_t := (HiGlassDisplay callback W).

Lemma with_logged_caught (self : self_t) (e : exn) :
  Widget (callbacks self) (sent self)
    ((logged self ++ [log_error e]) ++
       [log_exception "Unhandled exception while handling msg" e])
    (env self)
  = with_logged self (caught e).
Proof. unfold with_logged, caught. by rewrite <- app_assoc. Qed.

(** The handler when the body raises before any callback is called. *)
Lemma handle_body_raises (content : json) (self : self_t) (e : exn) :
  handle_body content self = ([], Raise e, self) →
  is_Exception e = true →
  _handle_js_events content self = ([], Ok tt, with_logged self (caught e)).
Proof.
  intros Hbody He. unfold _handle_js_events, try_except_Exception.
  rewrite Hbody, He. unfold bind, log. simpl.
  by rewrite with_logged_caught.
Qed.

Lemma callbacks_getitem_miss (k : json) (self : self_t) :
  (∀ u, k = JStr u → callbacks self !! u = None) →
  ∃ e, callbacks_getitem k self = ([], Raise e, self) ∧ is_Exception e = true.
Proof.
  intros Hk. destruct k; simpl; eauto.
  rewrite (Hk s eq_refl). eauto.
Qed.

Lemma handle_body_miss (content : json) (self : self_t) :
  (∀ u, correlation_id content = Ok (JStr u) → callbacks self !! u = None) →
  ∃ e, handle_body content self = ([], Raise e, self) ∧ is_Exception e = true.
Proof.
  intros Hmiss. unfold handle_body, bind at 1, params_uuid, lift.
  destruct (correlation_id content) as [k|e] eqn:Hid.
  - destruct (callbacks_getitem_miss k self) as (e & Hget & He).
    { intros u ->. by apply Hmiss. }
    exists e. split; [|done]. unfold bind. by rewrite Hget.
  - exists e. split; [done|]. by apply correlation_id_raises_Exception in Hid.
Qed.

(** The body of the [try] when the id is registered: the callable is
    applied to [imgData] on the widget as it stands. *)
Lemma handle_body_hit (content : json) (self : self_t) (u : string)
    (cb : callback) :
  correlation_id content = Ok (JStr u) →
  callbacks self !! u = Some cb →
  handle_body content self =
    if truthy cb then
      match getitem content "imgData" with
      | Raise e => ([], Raise e, self)
      | Ok x =>
          match call cb x self with
          | (Raise e, self') => ([Invocation (JStr u) cb x (Raise e)], Raise e, self')
          | (Ok r, self') =>
              match callbacks self' !! u with
              | Some _ =>
                  ([Invocation (JStr u) cb x (Ok r)], Ok tt,
                   with_callbacks self' (delete u (callbacks self')))
              | None =>
                  ([Invocation (JStr u) cb x (Ok r)],
                   Raise (KeyError (JStr u)), self')
              end
          end
      end
    else ([], Ok tt, self).
Proof.
  intros Hid Hcb. unfold handle_body, bind, params_uuid, lift, invoke.
  rewrite Hid. simpl. rewrite Hcb.
  destruct (truthy cb); [|done].
  rewrite Hcb.
  destruct (getitem content "imgData") as [x|e]; [|done].
  destruct (call cb x self) as [[r|e] self']; [|done].
  simpl. destruct (callbacks self' !! u); done.
Qed.

(** The handler when the id is registered, its callable is truthy and the
    message carries [imgData]. *)
Lemma handle_hit (content : json) (self : self_t) (u : string)
    (cb : callback) (x : json) :
  correlation_id content = Ok (JStr u) →
  callbacks self !! u = Some cb →
  truthy cb = true →
  getitem content "imgData" = Ok x →
  _handle_js_events content self =
    match call cb x self with
    | (Raise e, self') =>
        if is_Exception e
        then ([Invocation (JStr u) cb x (Raise e)], Ok tt,
              with_logged self' (caught e))
        else ([Invocation (JStr u) cb x (Raise e)], Raise e, self')
    | (Ok r, self') =>
        match callbacks self' !! u with
        | Some _ =>
            ([Invocation (JStr u) cb x (Ok r)], Ok tt,
             with_callbacks self' (delete u (callbacks self')))
        | None =>
            ([Invocation (JStr u) cb x (Ok r)], Ok tt,
             with_logged self' (caught (KeyError (JStr u))))
        end
    end.
Proof.
  intros Hid Hcb Ht Hx. unfold _handle_js_events, try_except_Exception.
  rewrite (handle_body_hit content self u cb Hid Hcb), Ht, Hx.
  destruct (call cb x self) as [[r|e] self'].
  - destruct (callbacks self' !! u); [done|]. simpl.
    unfold bind, log. simpl. by rewrite with_logged_caught.
  - destruct (is_Exception e); [|done].
    unfold bind, log. simpl. by rewrite with_logged_caught.
Qed.

Lemma handle_hit_trace (content : json) (self : self_t) (u : string)
    (cb : callback) (x : json) :
  correlation_id content = Ok (JStr u) →
  callbacks self !! u = Some cb →
  truthy cb = true →
  getitem content "imgData" = Ok x →
  ∃ r self1,
    _handle_js_events content self
    = ([Invocation (JStr u) cb x (call cb x self).1], r, self1).
Proof.
  intros Hid Hcb Ht Hx. rewrite (handle_hit content self u cb x) by done.
  destruct (call cb x self) as [[r|e] self']; simpl.
  - destruct (callbacks self' !! u); eauto.
  - destruct (is_Exception e); eauto.
Qed.

(** C7: a message whose id is not in the registry (never issued, already
    delivered, removed by the host), whose id is not a string, or that
    lacks [params] or [uuid], makes the handler call no callable and
    return normally; the registry, the sent messages and the environment
    are as before and the error is logged. *)
Theorem unknown_reply_dropped (content : json) (self : self_t) :
  (∀ u, correlation_id content = Ok (JStr u) → callbacks self !! u = None) →
  ∃ e, _handle_js_events content self
       = ([], Ok tt, with_logged self (caught e)).
Proof.
  intros Hmiss.
  destruct (handle_body_miss content self Hmiss) as (e & Hbody & He).
  exists e. by apply handle_body_raises.
Qed.

(** C9: when the callable registered under the id of a message raises, the
    handler does not reach the [del]: the registry is as the callable left
    it, so the entry (which the callable did not remove itself) is still
    there, and every further message with this id calls the same callable
    again. *)
Theorem raising_callback_stays_registered (content : json) (self self' : self_t)
    (u : string) (cb : callback) (x : json) (e : exn) :
  correlation_id content = Ok (JStr u) →
  callbacks self !! u = Some cb →
  truthy cb = true →
  getitem content "imgData" = Ok x →
  call cb x self = (Raise e, self') →
  callbacks self' !! u = Some cb →
  ∃ r self1,
    _handle_js_events content self
      = ([Invocation (JStr u) cb x (Raise e)], r, self1)
    ∧ callbacks self1 = callbacks self'
    ∧ callbacks self1 !! u = Some cb
    ∧ ∀ content2 x2,
        correlation_id content2 = Ok (JStr u) →
        getitem content2 "imgData" = Ok x2 →
        ∃ r2 self2,
          _handle_js_events content2 self1
          = ([Invocation (JStr u) cb x2 (call cb x2 self1).1], r2, self2).
Proof.
  intros Hid Hcb Ht Hx Hcall Hkept.
  rewrite (handle_hit content self u cb x) by done. rewrite Hcall.
  assert (Hagain : ∀ self1 : self_t, callbacks self1 = callbacks self' →
    ∀ content2 x2,
      correlation_id content2 = Ok (JStr u) →
      getitem content2 "imgData" = Ok x2 →
      ∃ r2 self2,
        _handle_js_events content2 self1
        = ([Invocation (JStr u) cb x2 (call cb x2 self1).1], r2, self2)).
  { intros self1 Heq content2 x2 Hid2 Hx2.
    apply handle_hit_trace; try done. by rewrite Heq. }
  destruct (is_Exception e); do 2 eexists; (split; [reflexivity|]);
    (split; [done|]); (split; [done|]); by apply Hagain.
Qed.

(** C6, amended: when the callable of one request raises an exception that
    is an [Exception] (what [except Exception] catches), the handler
    catches it and returns normally; a second request that is registered
    under another id and that the failing callable left alone is served by
    a later message: its own callable is called with that message's
    [imgData]. *)
Theorem callback_failure_isolated (content1 content2 : json)
    (self self' : self_t) (u1 u2 : string) (cb1 cb2 : callback)
    (x1 x2 : json) (e : exn) :
  u1 ≠ u2 →
  correlation_id content1 = Ok (JStr u1) →
  getitem content1 "imgData" = Ok x1 →
  callbacks self !! u1 = Some cb1 →
  truthy cb1 = true →
  call cb1 x1 self = (Raise e, self') →
  is_Exception e = true →
  callbacks self !! u2 = Some cb2 →
  callbacks self' !! u2 = callbacks self !! u2 →
  truthy cb2 = true →
  correlation_id content2 = Ok (JStr u2) →
  getitem content2 "imgData" = Ok x2 →
  ∃ self1,
    _handle_js_events content1 self
      = ([Invocation (JStr u1) cb1 x1 (Raise e)], Ok tt, self1)
    ∧ ∃ r2 self2,
        _handle_js_events content2 self1
        = ([Invocation (JStr u2) cb2 x2 (call cb2 x2 self1).1], r2, self2).
Proof.
  intros Hne Hid1 Hx1 Hcb1 Ht1 Hcall He Hcb2 Hind Ht2 Hid2 Hx2.
  rewrite (handle_hit content1 self u1 cb1 x1) by done. rewrite Hcall, He.
  eexists. split; [reflexivity|].
  apply handle_hit_trace; try done. simpl. by rewrite Hind.
Qed.

(** C2, amended: for every message whose id is registered (with a truthy
    callable, and carrying [imgData]), the handler applies the callable to
    the widget as it stands, the entry still in the registry; when the
    callable has returned, the handler deletes the entry from the registry
    the callable left (and logs the [KeyError] if the callable removed the
    entry itself). *)
Theorem callback_runs_before_removal (content : json) (self self' : self_t)
    (u : string) (cb : callback) (x : json) :
  correlation_id content = Ok (JStr u) →
  callbacks self !! u = Some cb →
  truthy cb = true →
  getitem content "imgData" = Ok x →
  call cb x self = (Ok tt, self') →
  _handle_js_events content self =
    ([Invocation (JStr u) cb x (Ok tt)], Ok tt,
     match callbacks self' !! u with
     | Some _ => with_callbacks self' (delete u (callbacks self'))
     | None => with_logged self' (caught (KeyError (JStr u)))
     end).
Proof.
  intros Hid Hcb Ht Hx Hcall.
  rewrite (handle_hit content self u cb x) by done. rewrite Hcall.
  by destruct (callbacks self' !! u).
Qed.

(** *** Sequences of requests and deliveries *)

Lemma run_cons (ev : event) (rest : list event) (self : self_t) :
  (run (ev :: rest) self).1
  = (step ev self).1.1 ++ (run rest (step ev self).2).1.
Proof.
  simpl. destruct (step ev self) as [[tr r] self1]. simpl.
  by destruct (run rest self1).
Qed.

Lemma step_request (u : string) (cb : callback) (self : self_t) :
  (step (Request u cb) self).1.1 = []
  ∧ callbacks (step (Request u cb) self).2 = <[u := cb]> (callbacks self).
Proof. done. Qed.

(** One delivery makes no call and keeps the registry, or calls the
    callable registered under the message's id once; the entry is deleted
    exactly when the call returns (the callables keeping the registry as
    it is). *)
Lemma handle_cases (content : json) (self : self_t) :
  registry_preserving →
  ((_handle_js_events content self).1.1 = []
   ∧ callbacks (_handle_js_events content self).2 = callbacks self)
  ∨ ∃ u cb x rr,
      (_handle_js_events content self).1.1 = [Invocation (JStr u) cb x rr]
      ∧ callbacks self !! u = Some cb
      ∧ ((callbacks (_handle_js_events content self).2 = callbacks self
          ∧ ∃ e, rr = Raise e)
         ∨ (callbacks (_handle_js_events content self).2
              = delete u (callbacks self)
            ∧ rr = Ok tt)).
Proof.
  intros Hpres.
  destruct (correlation_id content) as [k|e0] eqn:Hid.
  2: { left.
       destruct (handle_body_miss content self) as (e & Hbody & He).
       { intros u. by rewrite Hid. }
       by rewrite (handle_body_raises _ _ _ Hbody He). }
  assert (Hmiss : (∀ u, k = JStr u → callbacks self !! u = None) →
    (_handle_js_events content self).1.1 = []
    ∧ callbacks (_handle_js_events content self).2 = callbacks self).
  { intros Hk.
    destruct (handle_body_miss content self) as (e & Hbody & He).
    { intros u. rewrite Hid. intros [= ->]. by apply Hk. }
    by rewrite (handle_body_raises _ _ _ Hbody He). }
  destruct k as [| | |u| |]; try (left; by apply Hmiss).
  destruct (callbacks self !! u) as [cb|] eqn:Hcb.
  2: { left. apply Hmiss. by intros ? [= <-]. }
  destruct (truthy cb) eqn:Ht.
  2: { left. unfold _handle_js_events, try_except_Exception.
       by rewrite (handle_body_hit content self u cb Hid Hcb), Ht. }
  destruct (getitem content "imgData") as [x|e] eqn:Hx.
  2: { left.
       rewrite (handle_body_raises content self e).
       - done.
       - by rewrite (handle_body_hit content self u cb Hid Hcb), Ht, Hx.
       - by apply getitem_raises_Exception in Hx. }
  right. exists u, cb, x, (call cb x self).1.
  rewrite (handle_hit content self u cb x) by done.
  pose proof (Hpres cb x self) as Hkeep.
  destruct (call cb x self) as [[[]|e] self']; simpl in *.
  - rewrite Hkeep, Hcb. simpl. split; [done|]. split; [done|].
    by right.
  - destruct (is_Exception e); simpl; (split; [done|]); (split; [done|]);
      left; eauto.
Qed.

(** Every call is made on the callable found in the registry, which was
    there at the start or was put there by a request. *)
Lemma run_routing (evs : list event) :
  registry_preserving →
  ∀ (self : self_t) (i : invocation callback),
    i ∈ (run evs self).1 →
    ∃ u, inv_uuid i = JStr u
         ∧ (callbacks self !! u = Some (inv_callback i)
            ∨ Request u (inv_callback i) ∈ evs).
Proof.
  intros Hpres. induction evs as [|ev rest IH]; intros self i.
  { simpl. by intros ?%elem_of_nil. }
  rewrite run_cons, elem_of_app. intros [Hi|Hi].
  - destruct ev as [u0 cb0|content]; [by apply elem_of_nil in Hi|].
    simpl in Hi.
    destruct (handle_cases content self Hpres)
      as [[Htr _]|(u & cb & x & rr & Htr & Hcb & _)]; rewrite Htr in Hi.
    + by apply elem_of_nil in Hi.
    + apply list_elem_of_singleton in Hi as ->. exists u. by eauto.
  - destruct (IH _ _ Hi) as (u & Hu & [Hreg|Hreq]); exists u; (split; [done|]).
    2: { right. by apply elem_of_cons; right. }
    destruct ev as [u0 cb0|content].
    + destruct (step_request u0 cb0 self) as [_ Hins].
      rewrite Hins in Hreg. apply lookup_insert_Some in Hreg as [[-> ->]|[_ ?]].
      * right. apply elem_of_cons. by left.
      * by left.
    + left. simpl in Hreg.
      destruct (handle_cases content self Hpres)
        as [[_ Hsame]|(? & ? & ? & ? & _ & _ & [[Hsame _]|[Hdel _]])].
      * by rewrite Hsame in Hreg.
      * by rewrite Hsame in Hreg.
      * rewrite Hdel in Hreg. by apply lookup_delete_Some in Hreg as [_ ?].
Qed.

Lemma request_in_ids (u : string) (cb : callback) (evs : list event) :
  Request u cb ∈ evs → u ∈ request_ids evs.
Proof.
  intros Hin. unfold request_ids. apply list_elem_of_omap.
  by exists (Request u cb).
Qed.

(** Once a call has returned, its id is called no more, the ids of the
    requests being new. *)
Lemma run_once (evs : list event) :
  registry_preserving →
  ∀ (self : self_t),
    NoDup (request_ids evs) →
    (∀ u, u ∈ request_ids evs → callbacks self !! u = None) →
    ∀ tr1 i tr2,
      (run evs self).1 = tr1 ++ i :: tr2 →
      inv_result i = Ok tt →
      ∀ j, j ∈ tr2 → inv_uuid j ≠ inv_uuid i.
Proof.
  intros Hpres. induction evs as [|ev rest IH]; intros self Hnd Hfresh tr1 i tr2.
  { simpl. by destruct tr1. }
  rewrite run_cons. destruct ev as [u0 cb0|content].
  - destruct (step_request u0 cb0 self) as [-> Hins]. simpl app.
    simpl in Hnd. apply NoDup_cons in Hnd as [Hu0 Hnd].
    apply IH; [done|]. intros u Hu. simpl.
    rewrite lookup_insert_ne by (intros ->; done).
    apply Hfresh. simpl. by apply elem_of_cons; right.
  - change (request_ids (Deliver content :: rest)) with (request_ids rest)
      in Hnd, Hfresh.
    simpl step.
    destruct (handle_cases content self Hpres)
      as [[Htr Hsame]|(u & cb & x & rr & Htr & Hcb & Hreg)]; rewrite Htr.
    + simpl app. apply IH; [done|]. intros u Hu. rewrite Hsame. by apply Hfresh.
    + assert (Hshrink : ∀ u', callbacks self !! u' = None →
        callbacks (_handle_js_events content self).2 !! u' = None).
      { intros u' Hu'. destruct Hreg as [[-> _]|[-> _]]; [done|].
        apply lookup_delete_None. by right. }
      destruct tr1 as [|i0 tr1]; simpl; intros [= <- Hrest].
      * intros Hok j Hj. simpl in Hok. simpl.
        destruct Hreg as [[_ [e ->]]|[Hdel _]]; [done|].
        rewrite <- Hrest in Hj.
        destruct (run_routing rest Hpres _ _ Hj) as (u' & -> & [Hin|Hin]);
          intros [= ->].
        -- rewrite Hdel, lookup_delete_eq in Hin. done.
        -- apply request_in_ids, Hfresh in Hin. congruence.
      * apply (IH _ Hnd (fun u' Hu' => Hshrink u' (Hfresh u' Hu')) _ _ _ Hrest).
Qed.

Lemma request_ids_functional (evs : list event) (u : string)
    (cb cb' : callback) :
  NoDup (request_ids evs) →
  Request u cb ∈ evs → Request u cb' ∈ evs → cb = cb'.
Proof.
  induction evs as [|ev rest IH]; [by intros _ ?%elem_of_nil|].
  intros Hnd [Heq|Hin]%elem_of_cons [Heq'|Hin']%elem_of_cons.
  - congruence.
  - subst ev. simpl in Hnd. apply NoDup_cons in Hnd as [Hu _].
    by apply request_in_ids in Hin'.
  - subst ev. simpl in Hnd. apply NoDup_cons in Hnd as [Hu _].
    by apply request_in_ids in Hin.
  - apply IH; [|done..].
    destruct ev; simpl in Hnd; [by apply NoDup_cons in Hnd as [_ ?]|done].
Qed.

Lemma run_app (evs1 evs2 : list event) (self : self_t) :
  run (evs1 ++ evs2) self
  = ((run evs1 self).1 ++ (run evs2 (run evs1 self).2).1,
     (run evs2 (run evs1 self).2).2).
Proof.
  revert self. induction evs1 as [|ev rest IH]; intros self.
  { simpl. by destruct (run evs2 self). }
  cbn [app run]. destruct (step ev self) as [[tr r] self1].
  rewrite IH. destruct (run rest self1) as [tr1 self2]. simpl.
  by rewrite app_assoc.
Qed.

(** A delivery for a registered id, with [imgData], calls its callable. *)
Lemma run_delivers (pre post : list event) (content : json) (self : self_t)
    (u : string) (cb : callback) (x : json) :
  correlation_id content = Ok (JStr u) →
  getitem content "imgData" = Ok x →
  callbacks (run pre self).2 !! u = Some cb →
  truthy cb = true →
  ∃ r, Invocation (JStr u) cb x r
       ∈ (run (pre ++ Deliver content :: post) self).1.
Proof.
  intros Hid Hx Hcb Ht. rewrite run_app. cbn [fst].
  rewrite run_cons. cbn [step].
  destruct (handle_hit_trace content (run pre self).2 u cb x Hid Hcb Ht Hx)
    as (r & self1 & ->).
  eexists. rewrite !elem_of_app. right. left. by left.
Qed.

(** C4, amended: take any sequence of requests, whose ids are pairwise
    distinct, and of deliveries (duplicates included) on a new widget,
    with callables that may raise but do not change the registry.  Every
    call is made for an id that was requested, on the callable that the
    request for this id registered, and there is one such callable per id;
    a delivery for an id that is registered at that point (the message
    carrying [imgData], the callable truthy) does call it; after a call
    that returned, no further call is made for its id. *)
Theorem replies_routed_once (evs : list event) (w : W) :
  registry_preserving →
  NoDup (request_ids evs) →
  (∀ i, i ∈ (run evs (init w)).1 →
     ∃ u, inv_uuid i = JStr u ∧ Request u (inv_callback i) ∈ evs)
  ∧ (∀ u cb cb', Request u cb ∈ evs → Request u cb' ∈ evs → cb = cb')
  ∧ (∀ pre content post u cb x,
       evs = pre ++ Deliver content :: post →
       correlation_id content = Ok (JStr u) →
       getitem content "imgData" = Ok x →
       callbacks (run pre (init w)).2 !! u = Some cb →
       truthy cb = true →
       ∃ r, Invocation (JStr u) cb x r ∈ (run evs (init w)).1)
  ∧ (∀ tr1 i tr2,
       (run evs (init w)).1 = tr1 ++ i :: tr2 →
       inv_result i = Ok tt →
       ∀ j, j ∈ tr2 → inv_uuid j ≠ inv_uuid i).
Proof.
  intros Hpres Hnd. split; [|split; [|split]].
  - intros i Hi.
    destruct (run_routing evs Hpres _ _ Hi) as (u & Hu & [Hreg|Hreq]).
    + simpl in Hreg. by rewrite lookup_empty in Hreg.
    + by eauto.
  - intros u cb cb'. by apply request_ids_functional.
  - intros pre content post u cb x ->. by apply run_delivers.
  - apply run_once; [done..|]. intros u _. apply lookup_empty.
Qed.

(** *** Further properties of the handler *)

(** What one delivery can be: an [Exception] met before any call (logged),
    a callable that is not truthy (nothing happens), or a call. *)
Lemma handle_shape (content : json) (self : self_t) :
  (∃ e, is_Exception e = true
        ∧ (∀ u cb, correlation_id content = Ok (JStr u) →
             callbacks self !! u = Some cb →
             truthy cb = true ∧ getitem content "imgData" = Raise e)
        ∧ _handle_js_events content self
          = ([], Ok tt, with_logged self (caught e)))
  ∨ ((∃ u cb, correlation_id content = Ok (JStr u)
              ∧ callbacks self !! u = Some cb ∧ truthy cb = false)
     ∧ _handle_js_events content self = ([], Ok tt, self))
  ∨ (∃ u cb x, correlation_id content = Ok (JStr u)
               ∧ callbacks self !! u = Some cb
               ∧ truthy cb = true
               ∧ getitem content "imgData" = Ok x).
Proof.
  assert (Hmiss :
    (∀ u, correlation_id content = Ok (JStr u) → callbacks self !! u = None) →
    ∃ e, is_Exception e = true
         ∧ (∀ u cb, correlation_id content = Ok (JStr u) →
              callbacks self !! u = Some cb →
              truthy cb = true ∧ getitem content "imgData" = Raise e)
         ∧ _handle_js_events content self
           = ([], Ok tt, with_logged self (caught e))).
  { intros Hk.
    destruct (handle_body_miss content self Hk) as (e & Hbody & He).
    exists e. split; [done|]. split.
    - intros u cb Hid Hcb. rewrite (Hk u Hid) in Hcb. done.
    - by apply handle_body_raises. }
  destruct (correlation_id content) as [k|e0] eqn:Hid.
  2: { left. apply Hmiss. by intros u. }
  destruct k as [| | |u| |]; try (left; apply Hmiss; by intros u).
  destruct (callbacks self !! u) as [cb|] eqn:Hcb.
  2: { left. apply Hmiss. by intros ? [= <-]. }
  destruct (truthy cb) eqn:Ht.
  2: { right; left. split; [by eauto|].
       unfold _handle_js_events, try_except_Exception.
       by rewrite (handle_body_hit content self u cb Hid Hcb), Ht. }
  destruct (getitem content "imgData") as [x|e] eqn:Hx.
  2: { left. exists e. split; [by apply getitem_raises_Exception in Hx|].
       split.
       - intros u' cb' [= <-] Hcb'. rewrite Hcb in Hcb'.
         injection Hcb' as <-. done.
       - apply handle_body_raises.
         + by rewrite (handle_body_hit content self u cb Hid Hcb), Ht, Hx.
         + by apply getitem_raises_Exception in Hx. }
  right; right. by exists u, cb, x.
Qed.

(** X1: whatever the message and the widget, one delivery calls at most
    one callable: the one registered under the message's id, applied to
    the message's [imgData] on the widget as it stands.  The handler lets
    an exception out only if that call raised it and it is not an
    [Exception]. *)
Theorem handler_boundary (content : json) (self : self_t) :
  (length (_handle_js_events content self).1.1 ≤ 1)%nat
  ∧ (∀ i, i ∈ (_handle_js_events content self).1.1 →
       ∃ u, inv_uuid i = JStr u
            ∧ correlation_id content = Ok (JStr u)
            ∧ callbacks self !! u = Some (inv_callback i)
            ∧ getitem content "imgData" = Ok (inv_payload i)
            ∧ inv_result i = (call (inv_callback i) (inv_payload i) self).1)
  ∧ (∀ e, (_handle_js_events content self).1.2 = Raise e →
       is_Exception e = false
       ∧ ∃ i, i ∈ (_handle_js_events content self).1.1
              ∧ inv_result i = Raise e).
Proof.
  destruct (handle_shape content self)
    as [(e & _ & _ & ->)|[[_ ->]|(u & cb & x & Hid & Hcb & Ht & Hx)]].
  - simpl. split; [lia|]. split; [by intros i ?%elem_of_nil|done].
  - simpl. split; [lia|]. split; [by intros i ?%elem_of_nil|done].
  - rewrite (handle_hit content self u cb x) by done.
    assert (Hone : ∀ i : invocation callback,
      i ∈ [Invocation (JStr u) cb x (call cb x self).1] →
      ∃ u0, inv_uuid i = JStr u0
            ∧ correlation_id content = Ok (JStr u0)
            ∧ callbacks self !! u0 = Some (inv_callback i)
            ∧ getitem content "imgData" = Ok (inv_payload i)
            ∧ inv_result i = (call (inv_callback i) (inv_payload i) self).1).
    { intros i ->%list_elem_of_singleton. exists u. by simpl. }
    destruct (call cb x self) as [[[]|e] self'] eqn:Hcall.
    + destruct (callbacks self' !! u); simpl;
        (split; [lia|]); (split; [exact Hone|done]).
    + destruct (is_Exception e) eqn:He; simpl;
        (split; [lia|]); (split; [exact Hone|]); [done|].
      intros e' [= <-]. split; [done|].
      eexists. split; [by left|done].
Qed.

(** X2: a callable whose [bool] is [False] is never called and never
    removed: the delivery changes nothing, not even the log. *)
Theorem falsy_callback_ignored (content : json) (self : self_t) (u : string)
    (cb : callback) :
  correlation_id content = Ok (JStr u) →
  callbacks self !! u = Some cb →
  truthy cb = false →
  _handle_js_events content self = ([], Ok tt, self).
Proof.
  intros Hid Hcb Ht. unfold _handle_js_events, try_except_Exception.
  by rewrite (handle_body_hit content self u cb Hid Hcb), Ht.
Qed.

(** X3: a message for a registered id that has no [imgData] calls nothing:
    the lookup of [imgData] raises before the call, the error is logged
    and the entry stays in the registry. *)
Theorem missing_imgData_not_called (content : json) (self : self_t)
    (u : string) (cb : callback) (e : exn) :
  correlation_id content = Ok (JStr u) →
  callbacks self !! u = Some cb →
  truthy cb = true →
  getitem content "imgData" = Raise e →
  _handle_js_events content self = ([], Ok tt, with_logged self (caught e))
  ∧ callbacks (with_logged self (caught e)) !! u = Some cb.
Proof.
  intros Hid Hcb Ht Hx. split; [|done].
  apply handle_body_raises.
  - by rewrite (handle_body_hit content self u cb Hid Hcb), Ht, Hx.
  - by apply getitem_raises_Exception in Hx.
Qed.

(** X4: an exception of the callable that is not an [Exception]
    ([KeyboardInterrupt], [SystemExit]) goes through the handler: it is
    raised to the caller, nothing is logged and the entry is not
    deleted. *)
Theorem system_exit_propagates (content : json) (self self' : self_t)
    (u : string) (cb : callback) (x : json) (e : exn) :
  correlation_id content = Ok (JStr u) →
  callbacks self !! u = Some cb →
  truthy cb = true →
  getitem content "imgData" = Ok x →
  call cb x self = (Raise e, self') →
  is_Exception e = false →
  _handle_js_events content self
  = ([Invocation (JStr u) cb x (Raise e)], Raise e, self').
Proof.
  intros Hid Hcb Ht Hx Hcall He.
  rewrite (handle_hit content self u cb x) by done. by rewrite Hcall, He.
Qed.

(** X5: a request followed by its reply.  [get_base64_img] sends the
    request message last; a reply that echoes its [params] and carries
    [imgData] calls the callback of the request with that [imgData], and
    when the callback returns (leaving the registry alone) the registry is
    what it was before the request, the id apart. *)
Theorem request_reply_round_trip (self self' : self_t) (u : string)
    (cb : callback) (x : json) :
  truthy cb = true →
  call cb x (get_base64_img u cb self).2 = (Ok tt, self') →
  callbacks self' = callbacks (get_base64_img u cb self).2 →
  last (sent (get_base64_img u cb self).2) = Some (request_message u)
  ∧ getitem (reply u x) "params" = getitem (request_message u) "params"
  ∧ _handle_js_events (reply u x) (get_base64_img u cb self).2
    = ([Invocation (JStr u) cb x (Ok tt)], Ok tt,
       with_callbacks self' (delete u (callbacks self))).
Proof.
  intros Ht Hcall Hkeep. split; [|split; [done|]].
  { simpl. apply last_snoc. }
  rewrite (handle_hit (reply u x) _ u cb x); try done.
  2: { simpl. apply lookup_insert_eq. }
  rewrite Hcall, Hkeep. simpl. rewrite lookup_insert_eq.
  by rewrite delete_insert_eq.
Qed.

(** X6: an id that is used for a second request before the first was
    answered belongs to the second request: the reply calls the second
    callback, and the first one is not called. *)
Theorem reused_uuid_latest_wins (content : json) (self : self_t) (u : string)
    (cb1 cb2 : callback) (x : json) :
  truthy cb2 = true →
  correlation_id content = Ok (JStr u) →
  getitem content "imgData" = Ok x →
  ∃ r, (run [Request u cb1; Request u cb2; Deliver content] self).1
       = [Invocation (JStr u) cb2 x r].
Proof.
  intros Ht Hid Hx. rewrite !run_cons. cbn [step].
  destruct (handle_hit_trace content
              (get_base64_img u cb2 (get_base64_img u cb1 self).2).2
              u cb2 x) as (r & self1 & Hrun); try done.
  { simpl. apply lookup_insert_eq. }
  exists (call cb2 x (get_base64_img u cb2 (get_base64_img u cb1 self).2).2).1.
  by rewrite Hrun.
Qed.

(** X7: a callback that asks for another image while it runs.  The new
    request is sent and, under an id other than the one being delivered,
    is registered when the handler returns; a registration under the id
    being delivered is deleted by the handler with the old one. *)
Theorem reentrant_request_survives (content : json) (self : self_t)
    (u u' : string) (cb cb' : callback) (x : json) :
  correlation_id content = Ok (JStr u) →
  callbacks self !! u = Some cb →
  truthy cb = true →
  getitem content "imgData" = Ok x →
  call cb x self = (Ok tt, (get_base64_img u' cb' self).2) →
  (_handle_js_events content self).1 = ([Invocation (JStr u) cb x (Ok tt)], Ok tt)
  ∧ sent (_handle_js_events content self).2
    = sent self ++ [request_message u']
  ∧ callbacks (_handle_js_events content self).2
    = delete u (<[u' := cb']> (callbacks self))
  ∧ (u' ≠ u → callbacks (_handle_js_events content self).2 !! u' = Some cb')
  ∧ (u' = u → callbacks (_handle_js_events content self).2 !! u' = None).
Proof.
  intros Hid Hcb Ht Hx Hcall.
  rewrite (handle_hit content self u cb x) by done. rewrite Hcall.
  assert (Hin : is_Some (callbacks (get_base64_img u' cb' self).2 !! u)).
  { simpl. destruct (decide (u' = u)) as [->|Hne].
    - rewrite lookup_insert_eq. by eexists.
    - rewrite lookup_insert_ne by done. by eexists. }
  destruct Hin as [cb0 ->]. simpl.
  split; [done|]. split; [done|]. split; [done|]. split.
  - intros Hne. rewrite lookup_delete_ne by done. apply lookup_insert_eq.
  - intros ->. apply lookup_delete_eq.
Qed.

(** One delivery and the messages sent: none, the callables sending
    none. *)
Lemma handle_sent (content : json) (self : self_t) :
  sent_preserving →
  sent (_handle_js_events content self).2 = sent self.
Proof.
  intros Hsent.
  destruct (handle_shape content self)
    as [(e & _ & _ & ->)|[[_ ->]|(u & cb & x & Hid & Hcb & Ht & Hx)]];
    [done..|].
  rewrite (handle_hit content self u cb x) by done.
  pose proof (Hsent cb x self) as Hkeep.
  destruct (call cb x self) as [[[]|e] self']; simpl in *.
  - by destruct (callbacks self' !! u).
  - by destruct (is_Exception e).
Qed.

(** X8: a delivery, with callables that leave the registry and the
    channel alone, sends nothing, adds no entry to the registry and does
    not touch the entry of any id but the message's. *)
Theorem delivery_frame (content : json) (self : self_t) :
  registry_preserving →
  sent_preserving →
  sent (_handle_js_events content self).2 = sent self
  ∧ callbacks (_handle_js_events content self).2 ⊆ callbacks self
  ∧ ∀ u', correlation_id content ≠ Ok (JStr u') →
      callbacks (_handle_js_events content self).2 !! u'
      = callbacks self !! u'.
Proof.
  intros Hpres Hsent. split; [by apply handle_sent|].
  destruct (handle_shape content self)
    as [(e & _ & _ & ->)|[[_ ->]|(u & cb & x & Hid & Hcb & Ht & Hx)]];
    [done..|].
  rewrite (handle_hit content self u cb x) by done.
  pose proof (Hpres cb x self) as Hkeep.
  destruct (call cb x self) as [[[]|e] self']; simpl in *.
  - rewrite Hkeep, Hcb. simpl. split.
    + apply delete_subseteq.
    + intros u' Hu'. apply lookup_delete_ne. intros ->. by apply Hu'.
  - destruct (is_Exception e); simpl; by rewrite Hkeep.
Qed.

(** The registry at the end of a sequence of events: the entries of the
    start and of the requests, without those whose call returned. *)
Lemma run_pending (evs : list event) :
  registry_preserving →
  ∀ (self : self_t),
    NoDup (request_ids evs) →
    (∀ u, u ∈ request_ids evs → callbacks self !! u = None) →
    ∀ u cb,
      callbacks (run evs self).2 !! u = Some cb
      ↔ (callbacks self !! u = Some cb ∨ Request u cb ∈ evs)
        ∧ ∀ i, i ∈ (run evs self).1 → inv_uuid i = JStr u →
            inv_result i ≠ Ok tt.
Proof.
  intros Hpres. induction evs as [|ev rest IH]; intros self Hnd Hfresh u cb.
  { simpl. split.
    - intros Hu. split; [by left|]. by intros i ?%elem_of_nil.
    - by intros [[?|?%elem_of_nil] _]. }
  assert (Hrun2 : (run (ev :: rest) self).2 = (run rest (step ev self).2).2).
  { simpl. destruct (step ev self) as [[tr r] self1]. simpl.
    by destruct (run rest self1). }
  rewrite Hrun2, run_cons. destruct ev as [u0 cb0|content].
  - destruct (step_request u0 cb0 self) as [-> Hins]. cbn [app].
    simpl in Hnd. apply NoDup_cons in Hnd as [Hu0 Hnd].
    rewrite IH; [|done|].
    2: { intros u1 Hu1. rewrite Hins.
         rewrite lookup_insert_ne by (intros ->; done).
         apply Hfresh. simpl. by right. }
    rewrite Hins.
    assert (Hfresh0 : callbacks self !! u0 = None).
    { apply Hfresh. simpl. by left. }
    split; intros [Hsrc Hno]; (split; [|done]).
    + destruct Hsrc as [[[-> ->]|[_ ?]]%lookup_insert_Some|?].
      * right. by left.
      * by left.
      * right. by right.
    + destruct Hsrc as [Hreg|[[= -> ->]|?]%elem_of_cons].
      * left. rewrite lookup_insert_ne; [done|]. intros ->. congruence.
      * left. apply lookup_insert_eq.
      * by right.
  - change (request_ids (Deliver content :: rest)) with (request_ids rest)
      in Hnd, Hfresh.
    cbn [step].
    assert (Hreq : ∀ u1 cb1, Request u1 cb1 ∈ Deliver content :: rest
                             ↔ Request u1 cb1 ∈ rest).
    { intros u1 cb1. rewrite elem_of_cons.
      split; [by intros [[=]|?]|by right]. }
    destruct (handle_cases content self Hpres)
      as [[Htr Hsame]|(u0 & cb0 & x & rr & Htr & Hcb & Hreg)]; rewrite Htr.
    + cbn [app]. rewrite IH; [|done|].
      2: { intros u1 Hu1. rewrite Hsame. by apply Hfresh. }
      by rewrite Hsame, Hreq.
    + assert (Hshrink : ∀ u', callbacks self !! u' = None →
        callbacks (_handle_js_events content self).2 !! u' = None).
      { intros u' Hu'. destruct Hreg as [[-> _]|[-> _]]; [done|].
        apply lookup_delete_None. by right. }
      rewrite IH; [|done|by intros u1 Hu1; apply Hshrink, Hfresh].
      rewrite Hreq.
      destruct Hreg as [[-> [e ->]]|[-> ->]].
      * split; intros [Hsrc Hno]; (split; [done|]).
        -- intros i [->|Hi]%elem_of_cons; [done|by apply Hno].
        -- intros i Hi. apply Hno. by right.
      * destruct (decide (u = u0)) as [->|Hne].
        -- split.
           ++ intros [[Hsrc|Hsrc] _].
              ** by rewrite lookup_delete_eq in Hsrc.
              ** apply request_in_ids, Hfresh in Hsrc. congruence.
           ++ intros [_ Hno]. exfalso.
              apply (Hno (Invocation (JStr u0) cb0 x (Ok tt))); [by left|done..].
        -- rewrite lookup_delete_ne by done.
           split; intros [Hsrc Hno]; (split; [done|]).
           ++ intros i [->|Hi]%elem_of_cons; [|by apply Hno].
              simpl. by intros [= ->].
           ++ intros i Hi. apply Hno. by right.
Qed.

(** X9: after any sequence of requests with pairwise distinct ids and of
    deliveries on a new widget (the callables leaving the registry alone),
    the pending requests are exactly the requests for whose id no call
    has returned: never answered, answered without [imgData], with a
    callable that is not truthy, or with a callable that raised. *)
Theorem pending_characterised (evs : list event) (w : W) (u : string)
    (cb : callback) :
  registry_preserving →
  NoDup (request_ids evs) →
  callbacks (run evs (init w)).2 !! u = Some cb
  ↔ Request u cb ∈ evs
    ∧ ∀ i, i ∈ (run evs (init w)).1 → inv_uuid i = JStr u →
        inv_result i ≠ Ok tt.
Proof.
  intros Hpres Hnd. rewrite (run_pending evs Hpres); [|done|].
  2: { intros u' _. apply lookup_empty. }
  simpl. rewrite lookup_empty.
  split; [by intros [[[=]|?] ?]|by intros [? ?]; split; [right|]].
Qed.

Lemma run_sent (evs : list event) :
  sent_preserving →
  ∀ self : self_t,
    sent (run evs self).2 = sent self ++ (request_message <$> request_ids evs).
Proof.
  intros Hsent. induction evs as [|ev rest IH]; intros self.
  { simpl. by rewrite app_nil_r. }
  assert (Hrun2 : (run (ev :: rest) self).2 = (run rest (step ev self).2).2).
  { simpl. destruct (step ev self) as [[tr r] self1]. simpl.
    by destruct (run rest self1). }
  rewrite Hrun2, IH. destruct ev as [u0 cb0|content].
  - simpl. by rewrite <- app_assoc.
  - cbn [step]. by rewrite handle_sent.
Qed.

(** X10: the channel carries one [save_as_png] message per call of
    [get_base64_img], in the order of the calls and each with the id of
    its call; deliveries send nothing (the callables sending nothing). *)
Theorem sent_one_per_request (evs : list event) (w : W) :
  sent_preserving →
  sent (run evs (init w)).2 = request_message <$> request_ids evs.
Proof. intros Hsent. by rewrite run_sent. Qed.

End Facts.

(** *** Scenarios *)

#[local] Existing Instance scenario_callables.

Lemma scenario_registry_preserving :
  registry_preserving (callback := scenario_callback) (W := list bool).
Proof. by intros [u|msg] x self. Qed.

(** C2, as stated, fails.  The callable registered under [u1] looks its own
    id up in the registry while it runs and finds it ([true] in the
    environment): the handler deletes the entry only after the call. *)
Lemma probe_sees_own_entry :
  _handle_js_events (reply "u1" (JStr "png"))
    (Widget {[ "u1"%string := probe "u1" ]} [] [] [])
  = ([Invocation (JStr "u1") (probe "u1") (JStr "png") (Ok tt)], Ok tt,
     Widget ∅ [] [] [true]).
Proof. reflexivity. Qed.

(** C4, as stated, fails.  The callable of request [u1] raises; the reply
    is delivered twice and the callable is called twice for this id. *)
Lemma failing_callback_called_twice :
  (run [Request "u1" (failing "boom");
        Deliver (reply "u1" (JStr "png"));
        Deliver (reply "u1" (JStr "png"))] (init [])).1
  = [Invocation (JStr "u1") (failing "boom") (JStr "png")
       (Raise (UserException "boom"));
     Invocation (JStr "u1") (failing "boom") (JStr "png")
       (Raise (UserException "boom"))].
Proof. reflexivity. Qed.

Example request_then_reply :
  run [Request "u1" (probe "u1"); Request "u2" (probe "u1");
       Deliver (reply "u2" (JStr "png"))] (init [])
  = ([Invocation (JStr "u2") (probe "u1") (JStr "png") (Ok tt)],
     Widget {[ "u1"%string := probe "u1" ]}
       [JDict [("request"%string, JStr "save_as_png");
               ("params"%string, JDict [("uuid"%string, JStr "u1")])];
        JDict [("request"%string, JStr "save_as_png");
               ("params"%string, JDict [("uuid"%string, JStr "u2")])]]
       [] [true]).
Proof. reflexivity. Qed.

Example missing_imgData_keeps_entry :
  _handle_js_events (JDict [("params"%string, JDict [("uuid"%string, JStr "u1")])])
    (Widget {[ "u1"%string := probe "u1" ]} [] [] [])
  = ([], Ok tt,
     Widget {[ "u1"%string := probe "u1" ]} []
       (caught (KeyError (JStr "imgData"))) []).
Proof. reflexivity. Qed.

Lemma unknown_reply_dropped_witness :
  ∃ e, _handle_js_events (reply "u2" (JStr "png"))
         (Widget {[ "u1"%string := probe "u1" ]} [] [] [])
       = ([], Ok tt,
          with_logged (Widget {[ "u1"%string := probe "u1" ]} [] [] [])
            (caught e)).
Proof.
  apply (unknown_reply_dropped (reply "u2" (JStr "png"))
           (Widget {[ "u1"%string := probe "u1" ]} [] [] [])).
  intros u [= <-]. reflexivity.
Defined.

Lemma raising_callback_stays_registered_witness :
  ∃ r self1,
    _handle_js_events (reply "u1" (JStr "png"))
      (Widget {[ "u1"%string := failing "boom" ]} [] [] [])
    = ([Invocation (JStr "u1") (failing "boom") (JStr "png")
          (Raise (UserException "boom"))], r, self1)
    ∧ callbacks self1 !! "u1"%string = Some (failing "boom").
Proof.
  destruct (raising_callback_stays_registered (reply "u1" (JStr "png"))
              (Widget {[ "u1"%string := failing "boom" ]} [] [] [])
              (Widget {[ "u1"%string := failing "boom" ]} [] [] [])
              "u1" (failing "boom") (JStr "png") (UserException "boom"))
    as (r & self1 & Hrun & _ & Hkept & _); [reflexivity..|].
  exists r, self1. split; [exact Hrun|exact Hkept].
Defined.

Lemma callback_failure_isolated_witness :
  let self := Widget {[ "u1"%string := failing "boom";
                        "u2"%string := probe "u2" ]} [] [] [] in
  ∃ self1,
    _handle_js_events (reply "u1" (JStr "a")) self
      = ([Invocation (JStr "u1") (failing "boom") (JStr "a")
            (Raise (UserException "boom"))], Ok tt, self1)
    ∧ ∃ r2 self2,
        _handle_js_events (reply "u2" (JStr "b")) self1
        = ([Invocation (JStr "u2") (probe "u2") (JStr "b")
              (call (probe "u2") (JStr "b") self1).1], r2, self2).
Proof.
  intros self.
  apply (callback_failure_isolated (reply "u1" (JStr "a"))
           (reply "u2" (JStr "b")) self self "u1" "u2"
           (failing "boom") (probe "u2") (JStr "a") (JStr "b")
           (UserException "boom")); try reflexivity.
  intros [=].
Defined.

Lemma callback_runs_before_removal_witness :
  _handle_js_events (reply "u1" (JStr "png"))
    (Widget {[ "u1"%string := probe "u1" ]} [] [] [])
  = ([Invocation (JStr "u1") (probe "u1") (JStr "png") (Ok tt)], Ok tt,
     with_callbacks (Widget {[ "u1"%string := probe "u1" ]} [] [] [true])
       (delete "u1"%string {[ "u1"%string := probe "u1" ]})).
Proof.
  rewrite (callback_runs_before_removal (reply "u1" (JStr "png"))
             (Widget {[ "u1"%string := probe "u1" ]} [] [] [])
             (Widget {[ "u1"%string := probe "u1" ]} [] [] [true])
             "u1" (probe "u1") (JStr "png")); reflexivity.
Defined.

Lemma replies_routed_once_witness :
  let evs := [Request "u1" (probe "u1"); Request "u2" (failing "boom");
              Deliver (reply "u2" (JStr "a")); Deliver (reply "u2" (JStr "a"));
              Deliver (reply "u1" (JStr "b")); Deliver (reply "u1" (JStr "b"))] in
  (∀ i, i ∈ (run evs (init [])).1 →
     ∃ u, inv_uuid i = JStr u ∧ Request u (inv_callback i) ∈ evs)
  ∧ (∀ tr1 i tr2,
       (run evs (init [])).1 = tr1 ++ i :: tr2 →
       inv_result i = Ok tt →
       ∀ j, j ∈ tr2 → inv_uuid j ≠ inv_uuid i).
Proof.
  intros evs.
  destruct (replies_routed_once evs []) as (Hrouted & _ & _ & Honce).
  - exact scenario_registry_preserving.
  - apply (bool_decide_unpack _). vm_compute. exact I.
  - split; [exact Hrouted|exact Honce].
Defined.

Example scenario_trace :
  (run [Request "u1" (probe "u1"); Request "u2" (failing "boom");
        Deliver (reply "u2" (JStr "a")); Deliver (reply "u2" (JStr "a"));
        Deliver (reply "u1" (JStr "b")); Deliver (reply "u1" (JStr "b"))]
     (init [])).1
  = [Invocation (JStr "u2") (failing "boom") (JStr "a")
       (Raise (UserException "boom"));
     Invocation (JStr "u2") (failing "boom") (JStr "a")
       (Raise (UserException "boom"));
     Invocation (JStr "u1") (probe "u1") (JStr "b") (Ok tt)].
Proof. reflexivity. Qed.

Example malformed_dropped :
  _handle_js_events (JDict [("imgData"%string, JStr "png")])
    (Widget {[ "u1"%string := probe "u1" ]} [] [] [])
  = ([], Ok tt,
     Widget {[ "u1"%string := probe "u1" ]} []
       (caught (KeyError (JStr "params"))) []).
Proof. reflexivity. Qed.

(** *** More scenarios *)

#[local] Existing Instance edge_callables.

(** C6, as stated, fails.  The callable registered under [u1] raises
    [KeyboardInterrupt], which is not an [Exception]: the [except] clause
    of the handler does not catch it, and it goes out of the handler to
    its caller; nothing is logged. *)
Lemma interrupt_escapes_handler :
  let self := Widget {[ "u1"%string := interrupted; "u2"%string := falsy ]}
                [] [] tt in
  _handle_js_events (reply "u1" (JStr "png")) self
  = ([Invocation (JStr "u1") interrupted (JStr "png")
        (Raise (SystemExiting "KeyboardInterrupt"))],
     Raise (SystemExiting "KeyboardInterrupt"),
     self).
Proof. reflexivity. Qed.

Lemma scenario_sent_preserving :
  sent_preserving (callback := scenario_callback) (W := list bool).
Proof. by intros [u|msg] x self. Qed.

Lemma handler_boundary_witness :
  let self := Widget {[ "u1"%string := interrupted ]} [] [] tt in
  (_handle_js_events (reply "u1" (JStr "png")) self).1.2
    = Raise (SystemExiting "KeyboardInterrupt")
  ∧ is_Exception (SystemExiting "KeyboardInterrupt") = false
  ∧ ∃ i, i ∈ (_handle_js_events (reply "u1" (JStr "png")) self).1.1
         ∧ inv_result i = Raise (SystemExiting "KeyboardInterrupt").
Proof.
  intros self. split; [reflexivity|].
  destruct (handler_boundary (reply "u1" (JStr "png")) self)
    as (_ & _ & Hraise).
  apply (Hraise (SystemExiting "KeyboardInterrupt")). reflexivity.
Defined.

Lemma falsy_callback_ignored_witness :
  _handle_js_events (reply "u1" (JStr "png"))
    (Widget {[ "u1"%string := falsy ]} [] [] tt)
  = ([], Ok tt, Widget {[ "u1"%string := falsy ]} [] [] tt).
Proof.
  apply (falsy_callback_ignored (reply "u1" (JStr "png"))
           (Widget {[ "u1"%string := falsy ]} [] [] tt) "u1" falsy);
    reflexivity.
Defined.

Lemma missing_imgData_not_called_witness :
  let content := JDict [("params"%string, JDict [("uuid"%string, JStr "u1")])] in
  let self := Widget {[ "u1"%string := probe "u1" ]} [] [] [] in
  _handle_js_events content self
    = ([], Ok tt, with_logged self (caught (KeyError (JStr "imgData"))))
  ∧ callbacks (with_logged self (caught (KeyError (JStr "imgData"))))
      !! "u1"%string = Some (probe "u1").
Proof.
  intros content self.
  apply (missing_imgData_not_called content self "u1" (probe "u1")
           (KeyError (JStr "imgData"))); reflexivity.
Defined.

Lemma system_exit_propagates_witness :
  _handle_js_events (reply "u1" (JStr "png"))
    (Widget {[ "u1"%string := interrupted ]} [] [] tt)
  = ([Invocation (JStr "u1") interrupted (JStr "png")
        (Raise (SystemExiting "KeyboardInterrupt"))],
     Raise (SystemExiting "KeyboardInterrupt"),
     Widget {[ "u1"%string := interrupted ]} [] [] tt).
Proof.
  apply (system_exit_propagates (reply "u1" (JStr "png"))
           (Widget {[ "u1"%string := interrupted ]} [] [] tt)
           (Widget {[ "u1"%string := interrupted ]} [] [] tt)
           "u1" interrupted (JStr "png")
           (SystemExiting "KeyboardInterrupt")); reflexivity.
Defined.

Lemma request_reply_round_trip_witness :
  let self := Widget {[ "u0"%string := failing "boom" ]} [] [] [] in
  _handle_js_events (reply "u1" (JStr "png"))
    (get_base64_img "u1" (probe "u1") self).2
  = ([Invocation (JStr "u1") (probe "u1") (JStr "png") (Ok tt)], Ok tt,
     with_callbacks
       (Widget {[ "u0"%string := failing "boom"; "u1"%string := probe "u1" ]}
          [request_message "u1"] [] [true])
       (delete "u1"%string {[ "u0"%string := failing "boom" ]})).
Proof.
  intros self.
  apply (request_reply_round_trip self
           (Widget {[ "u0"%string := failing "boom";
                      "u1"%string := probe "u1" ]}
              [request_message "u1"] [] [true])
           "u1" (probe "u1") (JStr "png")); reflexivity.
Defined.

Lemma reused_uuid_latest_wins_witness :
  ∃ r, (run [Request "u1" (failing "boom"); Request "u1" (probe "u1");
             Deliver (reply "u1" (JStr "png"))] (init [])).1
       = [Invocation (JStr "u1") (probe "u1") (JStr "png") r].
Proof.
  apply (reused_uuid_latest_wins (reply "u1" (JStr "png")) (init [])
           "u1" (failing "boom") (probe "u1") (JStr "png")); reflexivity.
Defined.

Lemma reentrant_request_survives_witness :
  let self := Widget {[ "u1"%string := renewing "u2" ]} [] [] tt in
  callbacks (_handle_js_events (reply "u1" (JStr "png")) self).2
    !! "u2"%string = Some (renewing "u2").
Proof.
  intros self.
  destruct (reentrant_request_survives (reply "u1" (JStr "png")) self
              "u1" "u2" (renewing "u2") (renewing "u2") (JStr "png"))
    as (_ & _ & _ & Hkept & _); [reflexivity..|].
  apply Hkept. intros [=].
Defined.

Example renewing_own_uuid_lost :
  _handle_js_events (reply "u1" (JStr "png"))
    (Widget {[ "u1"%string := renewing "u1" ]} [] [] tt)
  = ([Invocation (JStr "u1") (renewing "u1") (JStr "png") (Ok tt)], Ok tt,
     Widget ∅ [request_message "u1"] [] tt).
Proof. reflexivity. Qed.

Lemma delivery_frame_witness :
  let self := Widget {[ "u1"%string := probe "u1";
                        "u2"%string := failing "boom" ]} [] [] [] in
  callbacks (_handle_js_events (reply "u1" (JStr "png")) self).2
    !! "u2"%string
  = callbacks self !! "u2"%string.
Proof.
  intros self.
  destruct (delivery_frame (reply "u1" (JStr "png")) self)
    as (_ & _ & Hother).
  - exact scenario_registry_preserving.
  - exact scenario_sent_preserving.
  - apply Hother. intros [=].
Defined.

Lemma pending_characterised_witness :
  let evs := [Request "u1" (probe "u1"); Request "u2" (failing "boom");
              Request "u3" (probe "u3");
              Deliver (reply "u2" (JStr "a")); Deliver (reply "u1" (JStr "b"))] in
  callbacks (run evs (init [])).2 !! "u2"%string = Some (failing "boom")
  ↔ Request "u2" (failing "boom") ∈ evs
    ∧ ∀ i, i ∈ (run evs (init [])).1 → inv_uuid i = JStr "u2" →
        inv_result i ≠ Ok tt.
Proof.
  intros evs. apply (pending_characterised evs [] "u2" (failing "boom")).
  - exact scenario_registry_preserving.
  - apply (bool_decide_unpack _). vm_compute. exact I.
Defined.

Example pending_after_run :
  callbacks
    (run [Request "u1" (probe "u1"); Request "u2" (failing "boom");
          Request "u3" (probe "u3");
          Deliver (reply "u2" (JStr "a")); Deliver (reply "u1" (JStr "b"))]
       (init [])).2
  = {[ "u2"%string := failing "boom"; "u3"%string := probe "u3" ]}.
Proof. reflexivity. Qed.

Lemma sent_one_per_request_witness :
  sent (run [Request "u1" (probe "u1"); Deliver (reply "u1" (JStr "b"));
             Request "u2" (failing "boom"); Deliver (reply "u2" (JStr "a"))]
          (init [])).2
  = [request_message "u1"; request_message "u2"].
Proof.
  apply (sent_one_per_request
           [Request "u1" (probe "u1"); Deliver (reply "u1" (JStr "b"));
            Request "u2" (failing "boom"); Deliver (reply "u2" (JStr "a"))] []).
  exact scenario_sent_preserving.
Defined.

End BridgeFacts.

(** ** Composition *)

Module ComposeFacts.
Import Compose.

(** Induction on tracks, the children of a composite track included. *)
Lemma Track_ind (P : Track → Prop) :
  (∀ c ts, P (PlainTrack c ts)) →
  (∀ c ts children, Forall P children → P (CombinedTrack c ts children)) →
  ∀ track, P track.
Proof.
  intros Hplain Hcombined. fix IH 1.
  intros [c ts|c ts children]; [apply Hplain|].
  apply Hcombined. induction children as [|t rest IHrest]; constructor.
  - apply IH.
  - exact IHrest.
Qed.

(** *** Tilesets *)

Lemma fold_add_tileset (tracks1 : list Track) (tilesets : list Tileset) :
  fold_left add_tileset tracks1 tilesets = tilesets ++ omap tileset tracks1.
Proof.
  revert tilesets.
  induction tracks1 as [|t rest IH]; intros tilesets; simpl.
  { by rewrite app_nil_r. }
  rewrite IH. unfold add_tileset.
  destruct (tileset t); simpl; [by rewrite <- app_assoc|done].
Qed.

Lemma collect_track_direct (tilesets : list Tileset) (track : Track) :
  collect_track tilesets track = tilesets ++ direct_tilesets track.
Proof.
  destruct track as [c ts|c ts children]; unfold collect_track, add_tileset;
    simpl.
  - destruct ts; simpl; [done|by rewrite app_nil_r].
  - rewrite fold_add_tileset.
    destruct ts; simpl; [by rewrite <- app_assoc|by rewrite !app_nil_r].
Qed.

Lemma fold_collect_track (ts : list Track) (tilesets : list Tileset) :
  fold_left collect_track ts tilesets = tilesets ++ (ts ≫= direct_tilesets).
Proof.
  revert tilesets. induction ts as [|t rest IH]; intros tilesets.
  { simpl. by rewrite app_nil_r. }
  cbn [fold_left].
  rewrite IH, collect_track_direct, bind_cons. by rewrite <- app_assoc.
Qed.

Lemma fold_collect_views (views : list View) (tilesets : list Tileset) :
  fold_left (fun tilesets view => fold_left collect_track (tracks view) tilesets)
    views tilesets
  = tilesets ++ (views ≫= fun view => tracks view ≫= direct_tilesets).
Proof.
  revert tilesets. induction views as [|v rest IH]; intros tilesets.
  { simpl. by rewrite app_nil_r. }
  cbn [fold_left].
  rewrite IH, fold_collect_track, bind_cons. by rewrite <- app_assoc.
Qed.

Lemma omap_tileset_leaves (children : list Track) :
  forallb is_leaf children = true →
  omap tileset children = children ≫= extractTilesets_track.
Proof.
  induction children as [|t rest IH]; [done|].
  cbn [forallb]. intros [Ht Hrest]%andb_prop.
  rewrite bind_cons, <- IH by done.
  destruct t as [c [ts|]|]; done.
Qed.

Lemma direct_tilesets_shallow (track : Track) :
  shallow_track track = true →
  direct_tilesets track = extractTilesets_track track.
Proof.
  destruct track as [c ts|c [ts|] children]; simpl; [done..|].
  intros Hleaves. by rewrite app_nil_r, omap_tileset_leaves.
Qed.

Lemma omap_tileset_length (children : list Track) :
  length (omap tileset children)
  = length (filter (fun t => is_Some (tileset t)) children).
Proof.
  induction children as [|t rest IH]; [done|].
  rewrite filter_cons. cbn [omap list_omap].
  destruct (tileset t) as [ts|] eqn:Hts.
  - rewrite decide_True by eauto. simpl. by rewrite <- IH.
  - rewrite decide_False; [exact IH|]. by intros [? ?].
Qed.

(** C5, as stated, fails.  The one tileset of this view is two levels
    below the top-level composite track: the depth-first extraction of the
    specification finds it, the loops of [display] do not. *)
Lemma nested_tileset_not_collected :
  collect_tilesets [nested_view] = []
  ∧ extractTilesets [nested_view] = ["T1"%string].
Proof. split; reflexivity. Qed.

(** C5, amended: the extraction goes through the top-level tracks of each
    view in order, and one level down.  A top-level composite track adds
    the tileset references of its direct children that have one, in the
    children's order (as many references as there are such children),
    followed by its own if it has one; a top-level leaf adds its own if it
    has one; deeper tracks are not looked at.  Duplicates stay, and the
    result is a function of the views alone.  Where composite tracks hold
    leaves only and carry no tileset themselves, the result is the
    depth-first extraction. *)
Theorem collect_tilesets_one_level (views : list View) :
  collect_tilesets views
    = (views ≫= fun view => tracks view ≫= direct_tilesets)
  ∧ (∀ c children,
       direct_tilesets (CombinedTrack c None children) = omap tileset children
       ∧ length (direct_tilesets (CombinedTrack c None children))
         = length (filter (fun t => is_Some (tileset t)) children))
  ∧ (shallow views = true → collect_tilesets views = extractTilesets views).
Proof.
  assert (Hdirect : collect_tilesets views
    = (views ≫= fun view => tracks view ≫= direct_tilesets)).
  { unfold collect_tilesets. by rewrite fold_collect_views. }
  split; [exact Hdirect|]. split.
  - intros c children. simpl. rewrite app_nil_r.
    split; [done|apply omap_tileset_length].
  - rewrite Hdirect. unfold extractTilesets, shallow. clear Hdirect.
    induction views as [|v rest IH]; [done|].
    cbn [forallb]. intros [Hv Hrest]%andb_prop.
    rewrite !bind_cons, IH by done.
    f_equal. clear IH Hrest.
    induction (tracks v) as [|t ts IHts]; [done|].
    cbn [forallb] in Hv. apply andb_prop in Hv as [Ht Hts].
    by rewrite !bind_cons, IHts, direct_tilesets_shallow.
Qed.

Lemma collect_tilesets_one_level_witness :
  shallow [mixed_view; mixed_view] = true
  ∧ collect_tilesets [mixed_view; mixed_view]
    = extractTilesets [mixed_view; mixed_view].
Proof.
  split; [reflexivity|].
  apply (collect_tilesets_one_level [mixed_view; mixed_view]). reflexivity.
Defined.

Example collect_mixed :
  collect_tilesets [mixed_view; mixed_view]
  = ["T1"; "T2"; "T3"; "T1"; "T2"; "T3"]%string.
Proof. reflexivity. Qed.

Example collect_own_tileset_last :
  collect_tilesets
    [mkView [CombinedTrack 1%positive (Some "T0"%string)
               [PlainTrack 2%positive (Some "T1"%string)]] JNone]
  = ["T1"; "T0"]%string.
Proof. reflexivity. Qed.

(** *** Server addresses *)

Lemma lacks_server_iff (c : gmap string json) :
  lacks_server c = true
  ↔ c !! "server"%string = None ∨ c !! "server"%string = Some JNone.
Proof.
  unfold lacks_server.
  destruct (c !! "server"%string) as [v|]; [|by split; [left|]].
  destruct v; (split; [try done; by right|]); try done;
    by intros [[=]|[=]].
Qed.

Lemma lacks_server_with_server (address : string) (c : gmap string json) :
  lacks_server (with_server address c) = false.
Proof. unfold lacks_server, with_server. by rewrite lookup_insert_eq. Qed.

Lemma lacks_server_settled (address : string) (c : gmap string json) :
  lacks_server (settled address c) = false.
Proof.
  unfold settled. destruct (lacks_server c) eqn:Hc; [|done].
  apply lacks_server_with_server.
Qed.

Lemma settled_settled (address : string) (c : gmap string json) :
  settled address (settled address c) = settled address c.
Proof.
  unfold settled at 1. by rewrite lacks_server_settled.
Qed.

Lemma assigns_refl (address : string) (h : heap) : assigns address h h.
Proof. intros l. by left. Qed.

Lemma assigns_trans (address : string) (h1 h2 h3 : heap) :
  assigns address h1 h2 → assigns address h2 h3 → assigns address h1 h3.
Proof.
  intros H12 H23 l.
  destruct (H23 l) as [Heq|(c2 & Hc2 & Hlacks2 & Hl3)].
  { rewrite Heq. apply H12. }
  destruct (H12 l) as [Heq|(c1 & Hc1 & Hlacks1 & Hl2)].
  - right. exists c2. by rewrite <- Heq.
  - rewrite Hl2 in Hc2. injection Hc2 as <-.
    by rewrite lacks_server_with_server in Hlacks2.
Qed.

Lemma assigns_settled_stays (address : string) (h h' : heap) (l : loc)
    (c : gmap string json) :
  assigns address h h' →
  h !! l = Some c → lacks_server c = false → h' !! l = Some c.
Proof.
  intros Hassigns Hl Hc.
  destruct (Hassigns l) as [->|(c' & Hc' & Hlacks & _)]; [done|].
  congruence.
Qed.

Lemma assigns_cases (address : string) (h h' : heap) (l : loc)
    (c : gmap string json) :
  assigns address h h' →
  h !! l = Some c →
  h' !! l = Some c ∨ h' !! l = Some (settled address c).
Proof.
  intros Hassigns Hl.
  destruct (Hassigns l) as [->|(c' & Hc' & Hlacks & ->)]; [by left|].
  right. rewrite Hl in Hc'. injection Hc' as <-.
  unfold settled. by rewrite Hlacks.
Qed.

Lemma set_server_assigns (address : string) (h : heap) (track : Track) :
  assigns address h (set_server address h track).
Proof.
  unfold set_server. destruct (h !! conf track) as [c|] eqn:Hc.
  2: { apply assigns_refl. }
  destruct (lacks_server c) eqn:Hlacks.
  2: { apply assigns_refl. }
  intros l. destruct (decide (l = conf track)) as [->|Hne].
  - right. exists c. by rewrite lookup_insert_eq.
  - left. by rewrite lookup_insert_ne.
Qed.

Lemma set_server_at (address : string) (h : heap) (track : Track)
    (c : gmap string json) :
  h !! conf track = Some c →
  set_server address h track !! conf track = Some (settled address c).
Proof.
  intros Hc. unfold set_server, settled. rewrite Hc.
  destruct (lacks_server c); [by rewrite lookup_insert_eq|done].
Qed.

Lemma set_server_frame (address : string) (h : heap) (track : Track)
    (l : loc) :
  l ≠ conf track → set_server address h track !! l = h !! l.
Proof.
  intros Hne. unfold set_server.
  destruct (h !! conf track) as [c|]; [|done].
  destruct (lacks_server c); [by rewrite lookup_insert_ne|done].
Qed.

Section Folds.
Context {A : Type} (address : string) (f : heap → A → heap).

Lemma fold_left_assigns (xs : list A) :
  (∀ h x, x ∈ xs → assigns address h (f h x)) →
  ∀ h, assigns address h (fold_left f xs h).
Proof.
  induction xs as [|x rest IH]; intros Hf h; simpl.
  { apply assigns_refl. }
  apply assigns_trans with (f h x).
  - apply Hf. by left.
  - apply IH. intros h' x' Hx'. apply Hf. by right.
Qed.

Lemma fold_left_frame (touch : A → list loc) (xs : list A) (l : loc) :
  (∀ h x, x ∈ xs → l ∉ touch x → f h x !! l = h !! l) →
  l ∉ xs ≫= touch →
  ∀ h, fold_left f xs h !! l = h !! l.
Proof.
  induction xs as [|x rest IH]; intros Hf Hl h; [done|].
  rewrite bind_cons, not_elem_of_app in Hl. destruct Hl as [Hx Hrest].
  cbn [fold_left]. rewrite IH.
  - apply Hf; [by left|done].
  - intros h' x' Hx'. apply Hf. by right.
  - done.
Qed.

Lemma fold_left_settles (xs : list A) (x : A) (target : loc) :
  (∀ h x', x' ∈ xs → assigns address h (f h x')) →
  x ∈ xs →
  (∀ h c, h !! target = Some c →
     f h x !! target = Some (settled address c)) →
  ∀ h c, h !! target = Some c →
    fold_left f xs h !! target = Some (settled address c).
Proof.
  induction xs as [|x0 rest IH]; intros Hf Hx Hhit h c Hc.
  { by apply elem_of_nil in Hx. }
  cbn [fold_left].
  assert (Hrest : ∀ h x', x' ∈ rest → assigns address h (f h x')).
  { intros h' x' Hx'. apply Hf. by right. }
  apply elem_of_cons in Hx as [->|Hx].
  - apply (assigns_settled_stays address (f h x0)).
    + by apply fold_left_assigns.
    + by apply Hhit.
    + apply lacks_server_settled.
  - assert (H0 : assigns address h (f h x0)) by (apply Hf; by left).
    destruct (assigns_cases address _ _ _ _ H0 Hc) as [Hc1|Hc1].
    + by apply IH.
    + rewrite <- (settled_settled address c). by apply IH.
Qed.

End Folds.

Lemma rewrite_track_assigns (address : string) (h : heap) (track : Track) :
  assigns address h (rewrite_track address h track).
Proof.
  destruct track as [c ts|c ts children]; simpl.
  - apply set_server_assigns.
  - apply fold_left_assigns. intros h' t _. apply set_server_assigns.
Qed.

Lemma rewrite_tracks_assigns (address : string) (ts : list Track) (h : heap) :
  assigns address h (fold_left (rewrite_track address) ts h).
Proof.
  apply fold_left_assigns. intros h' t _. apply rewrite_track_assigns.
Qed.

Lemma rewrite_views_assigns (address : string) (h : heap)
    (cloned_views : list View) :
  assigns address h (rewrite_views address h cloned_views).
Proof.
  unfold rewrite_views. apply fold_left_assigns.
  intros h' view _. apply rewrite_tracks_assigns.
Qed.

Lemma rewrite_track_settles (address : string) (track t : Track) :
  t ∈ addressed track →
  ∀ h c, h !! conf t = Some c →
    rewrite_track address h track !! conf t = Some (settled address c).
Proof.
  destruct track as [c0 ts|c0 ts children]; simpl.
  - intros ->%list_elem_of_singleton h c. apply set_server_at.
  - intros Ht. apply fold_left_settles with (x := t); [|done|].
    + intros h' t' _. apply set_server_assigns.
    + intros h' c'. apply set_server_at.
Qed.

Lemma rewrite_views_settles (address : string) (cloned_views : list View)
    (t : Track) :
  t ∈ addressed_tracks cloned_views →
  ∀ h c, h !! conf t = Some c →
    rewrite_views address h cloned_views !! conf t
    = Some (settled address c).
Proof.
  unfold addressed_tracks.
  intros (view & (track & Ht & Htrack)%list_elem_of_bind & Hview)%list_elem_of_bind.
  unfold rewrite_views.
  apply fold_left_settles with (x := view); [|done|].
  { intros h' v _. apply rewrite_tracks_assigns. }
  apply fold_left_settles with (x := track); [|done|].
  { intros h' t' _. apply rewrite_track_assigns. }
  by apply rewrite_track_settles.
Qed.

(** C3: the loops of lines 141-149 change a [conf] dict in one way only:
    a dict in which [server] is missing or [None] is given the address of
    the backend.  A dict that has any other value under [server], the
    empty string included, is the same afterwards. *)
Theorem server_set_only_if_lacking (address : string) (h : heap)
    (cloned_views : list View) (l : loc) (c : gmap string json) :
  h !! l = Some c →
  (∀ v, c !! "server"%string = Some v → v ≠ JNone →
     rewrite_views address h cloned_views !! l = Some c)
  ∧ (c !! "server"%string = Some (JStr "") →
     rewrite_views address h cloned_views !! l = Some c)
  ∧ (rewrite_views address h cloned_views !! l ≠ Some c →
     (c !! "server"%string = None ∨ c !! "server"%string = Some JNone)
     ∧ rewrite_views address h cloned_views !! l
       = Some (<["server"%string := JStr address]> c)).
Proof.
  intros Hl.
  pose proof (rewrite_views_assigns address h cloned_views) as Hassigns.
  assert (Hkeep : ∀ v, c !! "server"%string = Some v → v ≠ JNone →
    rewrite_views address h cloned_views !! l = Some c).
  { intros v Hv Hnone. apply (assigns_settled_stays address h); [done..|].
    unfold lacks_server. rewrite Hv. by destruct v. }
  split; [exact Hkeep|]. split.
  - intros Hempty. by apply (Hkeep (JStr "")).
  - intros Hchanged.
    destruct (Hassigns l) as [Heq|(c' & Hc' & Hlacks & Hl')].
    { by rewrite Heq in Hchanged. }
    rewrite Hl in Hc'. injection Hc' as <-.
    split; [by apply lacks_server_iff|done].
Qed.

(** C10, amended: every track the loops look at (a top-level track that
    is not composite, a child of a top-level composite track) whose [conf]
    has no [server] key, or [None] under it, has the address of the
    backend under [server] afterwards, whether it carries a tileset or
    not. *)
Theorem server_assigned_to_lacking_tracks (address : string) (h : heap)
    (cloned_views : list View) (track : Track) (c : gmap string json) :
  track ∈ addressed_tracks cloned_views →
  h !! conf track = Some c →
  c !! "server"%string = None ∨ c !! "server"%string = Some JNone →
  rewrite_views address h cloned_views !! conf track
    = Some (<["server"%string := JStr address]> c)
  ∧ server_of (rewrite_views address h cloned_views) track
    = Some (JStr address).
Proof.
  intros Htrack Hc Hlacks%lacks_server_iff.
  assert (Hset : rewrite_views address h cloned_views !! conf track
    = Some (<["server"%string := JStr address]> c)).
  { rewrite (rewrite_views_settles address cloned_views track Htrack h c Hc).
    unfold settled. by rewrite Hlacks. }
  split; [exact Hset|].
  unfold server_of. rewrite Hset. simpl. apply lookup_insert_eq.
Qed.

Lemma server_set_only_if_lacking_witness :
  rewrite_views "localhost:8989" mixed_heap [mixed_view] !! 5%positive
    = Some {[ "server"%string := JStr "external:9000" ]}
  ∧ rewrite_views "localhost:8989" mixed_heap [mixed_view] !! 4%positive
    = Some {[ "server"%string := JStr "" ]}
  ∧ rewrite_views "localhost:8989" mixed_heap [mixed_view] !! 3%positive
    = Some (<["server"%string := JStr "localhost:8989"]>
              {[ "server"%string := JNone ]}).
Proof.
  split; [|split].
  - destruct (server_set_only_if_lacking "localhost:8989" mixed_heap
                [mixed_view] 5%positive
                {[ "server"%string := JStr "external:9000" ]})
      as (Hkeep & _ & _); [reflexivity|].
    apply (Hkeep (JStr "external:9000")); [reflexivity|intros [=]].
  - destruct (server_set_only_if_lacking "localhost:8989" mixed_heap
                [mixed_view] 4%positive {[ "server"%string := JStr "" ]})
      as (_ & Hempty & _); [reflexivity|].
    apply Hempty. reflexivity.
  - destruct (server_set_only_if_lacking "localhost:8989" mixed_heap
                [mixed_view] 3%positive {[ "server"%string := JNone ]})
      as (_ & _ & Hset); [reflexivity|].
    apply Hset. vm_compute. intros [=].
Defined.

Lemma server_assigned_to_lacking_tracks_witness :
  server_of (rewrite_views "localhost:8989" mixed_heap [mixed_view])
    (PlainTrack 3%positive None)
  = Some (JStr "localhost:8989").
Proof.
  apply (server_assigned_to_lacking_tracks "localhost:8989" mixed_heap
           [mixed_view] (PlainTrack 3%positive None)
           {[ "server"%string := JNone ]}).
  - unfold addressed_tracks. simpl. repeat constructor.
  - reflexivity.
  - right. reflexivity.
Defined.

Example rewrite_mixed :
  rewrite_views "localhost:8989" mixed_heap [mixed_view]
  = {[ 1%positive := ∅;
       2%positive := {[ "server"%string := JStr "localhost:8989" ]};
       3%positive := {[ "server"%string := JStr "localhost:8989" ]};
       4%positive := {[ "server"%string := JStr "" ]};
       5%positive := {[ "server"%string := JStr "external:9000" ]} ]}.
Proof. reflexivity. Qed.

(** *** The deep copy and the caller's views *)

Lemma clone_track_combined (h : heap) (c : loc) (ts : option Tileset)
    (children : list Track) :
  clone_track h (CombinedTrack c ts children)
  = let (h2, children') :=
      clone_tracks (<[fresh (dom h) := default ∅ (h !! c)]> h) children in
    (h2, CombinedTrack (fresh (dom h)) ts children').
Proof. reflexivity. Qed.

Lemma copied_alloc (h : heap) (c : gmap string json) :
  copied h (<[fresh (dom h) := c]> h) [fresh (dom h)].
Proof.
  pose proof (is_fresh (dom h)) as Hfresh.
  split; [|split].
  - apply insert_subseteq. by apply not_elem_of_dom.
  - intros l ->%list_elem_of_singleton. split; [done|].
    apply elem_of_dom. rewrite lookup_insert_eq. by eexists.
  - apply NoDup_singleton.
Qed.

Lemma copied_nil (h : heap) : copied h h [].
Proof.
  split; [done|]. split; [by intros l ?%elem_of_nil|apply NoDup_nil_2].
Qed.

Lemma copied_app (h h1 h2 : heap) (locs1 locs2 : list loc) :
  copied h h1 locs1 → copied h1 h2 locs2 → copied h h2 (locs1 ++ locs2).
Proof.
  intros (Hsub1 & Hnew1 & Hnd1) (Hsub2 & Hnew2 & Hnd2).
  pose proof (subseteq_dom _ _ Hsub1) as Hdom1.
  pose proof (subseteq_dom _ _ Hsub2) as Hdom2.
  split; [by etrans|]. split.
  - intros l [Hl|Hl]%elem_of_app.
    + destruct (Hnew1 l Hl) as [Hout Hin]. split; [done|]. by apply Hdom2.
    + destruct (Hnew2 l Hl) as [Hout Hin]. split; [|done].
      intros Hh. by apply Hout, Hdom1.
  - apply NoDup_app. split; [done|]. split; [|done].
    intros l Hl1 Hl2. destruct (Hnew1 l Hl1), (Hnew2 l Hl2). done.
Qed.

Lemma clone_tracks_copied (ts : list Track) :
  Forall (fun t => ∀ h,
    copied h (clone_track h t).1 (track_locs (clone_track h t).2)) ts →
  ∀ h, copied h (clone_tracks h ts).1 ((clone_tracks h ts).2 ≫= track_locs).
Proof.
  induction 1 as [|t rest Ht _ IH]; intros h.
  { apply copied_nil. }
  cbn [clone_tracks].
  specialize (Ht h). destruct (clone_track h t) as [h1 t'].
  specialize (IH h1). destruct (clone_tracks h1 rest) as [h2 rest'].
  cbn [fst snd] in *. rewrite bind_cons. by apply copied_app with h1.
Qed.

Lemma clone_track_copied (t : Track) (h : heap) :
  copied h (clone_track h t).1 (track_locs (clone_track h t).2).
Proof.
  revert h. induction t as [c ts|c ts children IH] using Track_ind; intros h.
  - simpl. apply copied_alloc.
  - rewrite clone_track_combined.
    pose proof (clone_tracks_copied children IH
      (<[fresh (dom h) := default ∅ (h !! c)]> h)) as Hchildren.
    destruct (clone_tracks _ children) as [h2 children'].
    cbn [fst snd track_locs] in *.
    change (fresh (dom h) :: children' ≫= track_locs)
      with ([fresh (dom h)] ++ (children' ≫= track_locs)).
    eapply copied_app; [apply copied_alloc|exact Hchildren].
Qed.

Lemma clone_views_copied (views : list View) (h : heap) :
  copied h (clone_views h views).1 (views_locs (clone_views h views).2).
Proof.
  revert h. induction views as [|v rest IH]; intros h.
  { apply copied_nil. }
  cbn [clone_views].
  pose proof (clone_tracks_copied (tracks v)) as Hts.
  specialize (Hts (Forall_true _ _ clone_track_copied) h).
  destruct (clone_tracks h (tracks v)) as [h1 ts].
  specialize (IH h1). destruct (clone_views h1 rest) as [h2 rest'].
  cbn [fst snd] in *. unfold views_locs. rewrite bind_cons.
  cbn [tracks]. by apply copied_app with h1.
Qed.

Lemma conf_in_track_locs (t : Track) : conf t ∈ track_locs t.
Proof. destruct t; simpl; by left. Qed.

Lemma rewrite_track_frame (address : string) (h : heap) (track : Track)
    (l : loc) :
  l ∉ track_locs track → rewrite_track address h track !! l = h !! l.
Proof.
  destruct track as [c ts|c ts children]; simpl.
  - intros Hl. apply set_server_frame. intros ->. apply Hl. by left.
  - intros Hl. apply not_elem_of_cons in Hl as [_ Hl].
    apply (fold_left_frame _ track_locs); [|done].
    intros h' t _ Ht. apply set_server_frame.
    intros ->. apply Ht, conf_in_track_locs.
Qed.

Lemma rewrite_views_frame (address : string) (h : heap)
    (cloned_views : list View) (l : loc) :
  l ∉ views_locs cloned_views →
  rewrite_views address h cloned_views !! l = h !! l.
Proof.
  intros Hl. unfold rewrite_views.
  apply (fold_left_frame _ (fun view => tracks view ≫= track_locs)); [|done].
  intros h' view _ Hview.
  apply (fold_left_frame _ track_locs); [|done].
  intros h'' t _ Ht. by apply rewrite_track_frame.
Qed.

Lemma assigns_dom (address : string) (h h' : heap) (l : loc) :
  assigns address h h' → l ∈ dom h → l ∈ dom h'.
Proof.
  intros Hassigns [c Hc]%elem_of_dom. apply elem_of_dom.
  destruct (Hassigns l) as [->|(c' & _ & _ & ->)]; eauto.
Qed.

Section DisplayFacts.
Variable start_server : list Tileset → result string.

Lemma display_Ok (views : list View) (h : heap) (address : string) :
  start_server (collect_tilesets views) = Ok address →
  display start_server views h
  = (Ok (Displayed (clone_views h views).2 (collect_tilesets views) address),
     rewrite_views address (clone_views h views).1 (clone_views h views).2).
Proof.
  intros Hstart. unfold display. rewrite Hstart.
  by destruct (clone_views h views).
Qed.

Lemma display_Raise (views : list View) (h : heap) (e : exn) :
  start_server (collect_tilesets views) = Raise e →
  display start_server views h = (Raise e, h).
Proof. intros Hstart. unfold display. by rewrite Hstart. Qed.

(** C1: [display] leaves every [conf] dict that exists when it is called
    as it is (tracks and views are values that [display] only reads; the
    dicts are the only objects it writes to).  The dicts of the views it
    returns are new objects, pairwise distinct, so that writing to a dict
    of a returned view afterwards leaves the caller's dicts alone, and
    writing to a caller's dict leaves the dicts of the returned views
    alone. *)
Theorem display_leaves_originals (views : list View) (h : heap) :
  (∀ l, l ∈ dom h → (display start_server views h).2 !! l = h !! l)
  ∧ ∀ d, (display start_server views h).1 = Ok d →
      NoDup (views_locs (viewconf_views d))
      ∧ ∀ l', l' ∈ views_locs (viewconf_views d) →
          (l' ∉ dom h)
          ∧ l' ∈ dom (display start_server views h).2
          ∧ ∀ l c, l ∈ dom h →
              <[l' := c]> (display start_server views h).2 !! l = h !! l
              ∧ <[l := c]> (display start_server views h).2 !! l'
                = (display start_server views h).2 !! l'.
Proof.
  destruct (start_server (collect_tilesets views)) as [address|e] eqn:Hstart.
  2: { rewrite (display_Raise views h e Hstart). simpl. split; [done|].
       by intros d [=]. }
  rewrite (display_Ok views h address Hstart). simpl.
  destruct (clone_views_copied views h) as (Hsub & Hnew & Hnd).
  assert (Hframe : ∀ l, l ∈ dom h →
    rewrite_views address (clone_views h views).1 (clone_views h views).2 !! l
    = h !! l).
  { intros l Hl. rewrite rewrite_views_frame.
    - apply elem_of_dom in Hl as [c Hc]. rewrite Hc.
      by apply (lookup_weaken h).
    - intros Hin. by destruct (Hnew l Hin). }
  split; [exact Hframe|].
  intros d [= <-]. simpl. split; [exact Hnd|].
  intros l' Hl'. destruct (Hnew l' Hl') as [Hout Hin].
  split; [exact Hout|]. split.
  { apply (assigns_dom address (clone_views h views).1); [|done].
    apply rewrite_views_assigns. }
  intros l c Hl.
  assert (l ≠ l') by (by intros ->).
  rewrite !lookup_insert_ne by done. by split; [apply Hframe|].
Qed.

End DisplayFacts.

Example display_mixed :
  display local_backend [mixed_view] mixed_heap
  = (Ok (Displayed
           [mkView [CombinedTrack 6%positive None
                      [PlainTrack 7%positive (Some "T1"%string);
                       PlainTrack 8%positive None;
                       PlainTrack 9%positive (Some "T2"%string)];
                    PlainTrack 10%positive (Some "T3"%string)] JNone]
           ["T1"; "T2"; "T3"]%string "localhost:8989"),
     {[ 1%positive := ∅; 2%positive := ∅;
        3%positive := {[ "server"%string := JNone ]};
        4%positive := {[ "server"%string := JStr "" ]};
        5%positive := {[ "server"%string := JStr "external:9000" ]};
        6%positive := ∅;
        7%positive := {[ "server"%string := JStr "localhost:8989" ]};
        8%positive := {[ "server"%string := JStr "localhost:8989" ]};
        9%positive := {[ "server"%string := JStr "" ]};
        10%positive := {[ "server"%string := JStr "external:9000" ]} ]}).
Proof. vm_compute. reflexivity. Qed.

Lemma display_leaves_originals_witness :
  (display local_backend [mixed_view] mixed_heap).2 !! 2%positive
    = mixed_heap !! 2%positive
  ∧ (7%positive ∉ dom mixed_heap)
  ∧ <[7%positive := ∅]> (display local_backend [mixed_view] mixed_heap).2
      !! 2%positive
    = mixed_heap !! 2%positive.
Proof.
  destruct (display_leaves_originals local_backend [mixed_view] mixed_heap)
    as [Hframe Hnew].
  assert (Hdom : 2%positive ∈ dom mixed_heap).
  { apply elem_of_dom. by exists ∅. }
  split; [by apply Hframe|].
  destruct (Hnew _ eq_refl) as [_ Hlocs].
  destruct (Hlocs 7%positive) as (Hout & _ & Hindep).
  { simpl. unfold views_locs. simpl. repeat constructor. }
  split; [exact Hout|].
  by apply (Hindep 2%positive ∅).
Defined.

(** *** Further properties of the rewriting and of [display] *)

Lemma fmap_bind_list {A B C} (f : B → C) (g : A → list B) (xs : list A) :
  f <$> (xs ≫= g) = xs ≫= fun x => f <$> g x.
Proof.
  induction xs as [|x rest IH]; [done|].
  by rewrite !bind_cons, fmap_app, IH.
Qed.

Lemma bind_singleton_fmap {A B} (f : A → B) (xs : list A) :
  (xs ≫= fun x => [f x]) = f <$> xs.
Proof.
  induction xs as [|x rest IH]; [done|]. by rewrite bind_cons, IH.
Qed.

Lemma rewrite_track_frame_addressed (address : string) (h : heap)
    (track : Track) (l : loc) :
  l ∉ conf <$> addressed track →
  rewrite_track address h track !! l = h !! l.
Proof.
  destruct track as [c ts|c ts children]; simpl.
  - intros Hl. apply set_server_frame. intros ->. apply Hl. by left.
  - intros Hl. apply (fold_left_frame _ (fun t => [conf t])).
    + intros h' t _ Ht. apply set_server_frame. intros ->. apply Ht. by left.
    + by rewrite bind_singleton_fmap.
Qed.

Lemma rewrite_views_frame_addressed (address : string) (h : heap)
    (cloned_views : list View) (l : loc) :
  l ∉ addressed_locs cloned_views →
  rewrite_views address h cloned_views !! l = h !! l.
Proof.
  unfold addressed_locs, addressed_tracks. rewrite fmap_bind_list.
  intros Hl. unfold rewrite_views.
  apply (fold_left_frame _
           (fun view => conf <$> (tracks view ≫= addressed))); [|done].
  intros h' view _ Hview. rewrite fmap_bind_list in Hview.
  apply (fold_left_frame _ (fun t => conf <$> addressed t)); [|done].
  intros h'' t _ Ht. by apply rewrite_track_frame_addressed.
Qed.

Lemma assigns_None (address : string) (h h' : heap) (l : loc) :
  assigns address h h' → h !! l = None → h' !! l = None.
Proof.
  intros Hassigns Hl.
  destruct (Hassigns l) as [->|(c & Hc & _)]; [done|congruence].
Qed.

(** X11: the result of the loops of lines 141-149 in closed form.  The
    [conf] dict of a track the loops look at ends with its own [server]
    value if it had one other than [None], and with the address of the
    backend otherwise; every other dict (of a top-level composite track,
    of a track more than one level down, of anything else) is as it
    was. *)
Theorem rewrite_views_closed_form (address : string) (h : heap)
    (cloned_views : list View) (l : loc) :
  rewrite_views address h cloned_views !! l
  = if decide (l ∈ addressed_locs cloned_views)
    then settled address <$> h !! l
    else h !! l.
Proof.
  destruct (decide (l ∈ addressed_locs cloned_views)) as [Hin|Hout].
  - apply list_elem_of_fmap in Hin as (t & -> & Ht).
    destruct (h !! conf t) as [c|] eqn:Hc; simpl.
    + by apply rewrite_views_settles.
    + apply (assigns_None address h); [apply rewrite_views_assigns|done].
  - by apply rewrite_views_frame_addressed.
Qed.

Lemma settled_again (a b : string) (c : gmap string json) :
  settled b (settled a c) = settled a c.
Proof. unfold settled at 1. by rewrite lacks_server_settled. Qed.

(** X12: rewriting again changes nothing, and the first address stays:
    running the loops with another address over views that have been
    through them leaves every dict as the first run left it. *)
Theorem rewrite_views_first_address_stays (a b : string) (h : heap)
    (cloned_views : list View) :
  rewrite_views b (rewrite_views a h cloned_views) cloned_views
  = rewrite_views a h cloned_views.
Proof.
  apply map_eq. intros l.
  rewrite (rewrite_views_closed_form b), !(rewrite_views_closed_form a).
  destruct (decide (l ∈ addressed_locs cloned_views)); [|done].
  destruct (h !! l) as [c|]; [|done]. simpl. by rewrite settled_again.
Qed.

(** X13: the loops write to the [server] key only and create or delete no
    dict: every other key of every dict has the value it had, and the
    store holds the same dicts. *)
Theorem rewrite_views_only_server (address : string) (h : heap)
    (cloned_views : list View) :
  dom (rewrite_views address h cloned_views) = dom h
  ∧ ∀ (l : loc) (k : string), k ≠ "server"%string →
      rewrite_views address h cloned_views !! l ≫= (fun c => c !! k)
      = h !! l ≫= (fun c => c !! k).
Proof.
  pose proof (rewrite_views_assigns address h cloned_views) as Hassigns.
  split.
  - apply set_eq. intros l. rewrite !elem_of_dom.
    destruct (Hassigns l) as [->|(c & -> & _ & ->)]; [done|].
    split; by eauto.
  - intros l k Hk.
    destruct (Hassigns l) as [->|(c & -> & _ & ->)]; [done|].
    simpl. unfold with_server. by rewrite lookup_insert_ne.
Qed.

Lemma addressed_locs_perm (views views' : list View) (l : loc) :
  views ≡ₚ views' →
  l ∈ addressed_locs views → l ∈ addressed_locs views'.
Proof.
  intros Hperm. unfold addressed_locs, addressed_tracks.
  intros (t & -> & (view & Ht & Hview)%list_elem_of_bind)%list_elem_of_fmap.
  apply list_elem_of_fmap. exists t. split; [done|].
  apply list_elem_of_bind. exists view. split; [done|].
  by rewrite <- Hperm.
Qed.

(** X14: the order of the views does not matter to the rewriting: two
    collections with the same views in another order give the same
    store. *)
Theorem rewrite_views_order_irrelevant (address : string) (h : heap)
    (views views' : list View) :
  views ≡ₚ views' →
  rewrite_views address h views = rewrite_views address h views'.
Proof.
  intros Hperm. apply map_eq. intros l.
  rewrite !rewrite_views_closed_form.
  destruct (decide (l ∈ addressed_locs views)) as [Hin|Hout].
  - rewrite decide_True; [done|]. by apply (addressed_locs_perm views).
  - rewrite decide_False; [done|]. intros Hin. apply Hout.
    by apply (addressed_locs_perm views').
Qed.

Lemma settled_server (address : string) (c : gmap string json) :
  ∃ v, settled address c !! "server"%string = Some v
       ∧ v ≠ JNone
       ∧ (c !! "server"%string = Some v ∨ v = JStr address).
Proof.
  unfold settled, lacks_server.
  destruct (c !! "server"%string) as [v|] eqn:Hv.
  - destruct v; try (exists (JStr address); unfold with_server;
                     rewrite lookup_insert_eq; by eauto);
      rewrite Hv; eexists; (split; [done|]); (split; [done|by left]).
  - exists (JStr address). unfold with_server. rewrite lookup_insert_eq.
    by eauto.
Qed.

Lemma server_after_rewrite (address : string) (h : heap)
    (cloned_views : list View) (track : Track) :
  track ∈ addressed_tracks cloned_views →
  conf track ∈ dom h →
  ∃ v, server_of (rewrite_views address h cloned_views) track = Some v
       ∧ v ≠ JNone
       ∧ (server_of h track = Some v ∨ v = JStr address).
Proof.
  intros Htrack [c Hc]%elem_of_dom.
  unfold server_of.
  rewrite (rewrite_views_settles address cloned_views track Htrack h c Hc), Hc.
  simpl. apply settled_server.
Qed.

(** X15: after the loops, every track they look at whose [conf] dict is
    in the store has a [server] value that is not [None]: the one it had,
    or the address of the backend. *)
Theorem addressed_tracks_have_server (address : string) (h : heap)
    (cloned_views : list View) (track : Track) :
  track ∈ addressed_tracks cloned_views →
  conf track ∈ dom h →
  ∃ v, server_of (rewrite_views address h cloned_views) track = Some v
       ∧ v ≠ JNone
       ∧ (server_of h track = Some v ∨ v = JStr address).
Proof. apply server_after_rewrite. Qed.

(** X16: the tilesets of a collection of views are those of its parts,
    one after the other: the collection is made view by view, and a view
    without tracks adds nothing. *)
Theorem collect_tilesets_app (views1 views2 : list View) :
  collect_tilesets (views1 ++ views2)
  = collect_tilesets views1 ++ collect_tilesets views2
  ∧ ∀ layout_, collect_tilesets (views1 ++ mkView [] layout_ :: views2)
               = collect_tilesets (views1 ++ views2).
Proof.
  unfold collect_tilesets. split.
  - by rewrite !fold_collect_views, !app_nil_l, bind_app.
  - intros layout_.
    by rewrite !fold_collect_views, !app_nil_l, !bind_app, bind_cons.
Qed.

Lemma addressed_in_views_locs (views : list View) (t : Track) :
  t ∈ addressed_tracks views → conf t ∈ views_locs views.
Proof.
  unfold addressed_tracks, views_locs.
  intros (view & (track & Ht & Htrack)%list_elem_of_bind & Hview)%list_elem_of_bind.
  apply list_elem_of_bind. exists view. split; [|done].
  apply list_elem_of_bind. exists track. split; [|done].
  destruct track as [c ts|c ts children]; simpl in *.
  - apply list_elem_of_singleton in Ht as ->. by left.
  - right. apply list_elem_of_bind. exists t.
    split; [apply conf_in_track_locs|done].
Qed.

Section DisplayMore.
Variable start_server : list Tileset → result string.

(** X17: when [display] returns, every track of the returned views that
    is a top-level track other than a composite one, or a child of a
    top-level composite track, has a [server] value in its [conf] that is
    not [None]; the server was started with the tilesets collected from
    the caller's views.  (The copy of the views is the modelled one.) *)
Theorem display_tracks_have_server (views : list View) (h : heap)
    (d : displayed) :
  (display start_server views h).1 = Ok d →
  start_server (collect_tilesets views) = Ok (api_address d)
  ∧ server_tilesets d = collect_tilesets views
  ∧ ∀ track, track ∈ addressed_tracks (viewconf_views d) →
      ∃ v, server_of (display start_server views h).2 track = Some v
           ∧ v ≠ JNone.
Proof.
  destruct (start_server (collect_tilesets views)) as [address|e] eqn:Hstart.
  2: { by rewrite (display_Raise start_server views h e Hstart). }
  rewrite (display_Ok start_server views h address Hstart). simpl.
  intros [= <-]. simpl. split; [done|]. split; [done|].
  intros track Htrack.
  destruct (clone_views_copied views h) as (_ & Hnew & _).
  destruct (Hnew (conf track)) as [_ Hin].
  { by apply addressed_in_views_locs. }
  destruct (server_after_rewrite address _ _ track Htrack Hin)
    as (v & Hv & Hnone & _).
  by eauto.
Qed.

End DisplayMore.

Lemma rewrite_views_only_server_witness :
  rewrite_views "localhost:8989" mixed_heap [mixed_view] !! 3%positive
    ≫= (fun c => c !! "options"%string)
  = mixed_heap !! 3%positive ≫= (fun c => c !! "options"%string).
Proof.
  apply (rewrite_views_only_server "localhost:8989" mixed_heap [mixed_view]).
  intros [=].
Defined.

Lemma rewrite_views_order_irrelevant_witness :
  rewrite_views "localhost:8989" mixed_heap [mixed_view; nested_view]
  = rewrite_views "localhost:8989" mixed_heap [nested_view; mixed_view].
Proof.
  apply (rewrite_views_order_irrelevant "localhost:8989" mixed_heap
           [mixed_view; nested_view] [nested_view; mixed_view]).
  apply perm_swap.
Defined.

Lemma addressed_tracks_have_server_witness :
  ∃ v, server_of (rewrite_views "localhost:8989" mixed_heap [mixed_view])
         (PlainTrack 4%positive (Some "T2"%string)) = Some v
       ∧ v ≠ JNone
       ∧ (server_of mixed_heap (PlainTrack 4%positive (Some "T2"%string))
            = Some v
          ∨ v = JStr "localhost:8989").
Proof.
  apply (addressed_tracks_have_server "localhost:8989" mixed_heap
           [mixed_view] (PlainTrack 4%positive (Some "T2"%string))).
  - unfold addressed_tracks. simpl. repeat constructor.
  - apply elem_of_dom. by eexists.
Defined.

Lemma display_tracks_have_server_witness :
  ∃ v, server_of (display local_backend [mixed_view] mixed_heap).2
         (PlainTrack 8%positive None) = Some v
       ∧ v ≠ JNone.
Proof.
  destruct (display_tracks_have_server local_backend [mixed_view] mixed_heap
              _ eq_refl) as (_ & _ & Hserver).
  apply Hserver. unfold addressed_tracks. simpl. repeat constructor.
Defined.

Example rewrite_nested :
  rewrite_views "localhost:8989"
    {[ 1%positive := ∅; 2%positive := ∅; 3%positive := ∅ ]} [nested_view]
  = {[ 1%positive := ∅;
       2%positive := {[ "server"%string := JStr "localhost:8989" ]};
       3%positive := ∅ ]}.
Proof. reflexivity. Qed.

(** C10, as stated, fails.  In this view the leaf is a child of a composite
    track that is itself a child of the top-level composite track.  Its
    [conf] has no [server] key, and has none after the loops, which go one
    level down only; the same holds for the copy that [display] returns. *)
Lemma nested_child_gets_no_server :
  let h : heap := {[ 1%positive := ∅; 2%positive := ∅; 3%positive := ∅ ]} in
  let leaf := PlainTrack 3%positive (Some "T1"%string) in
  nested_view
    = mkView [CombinedTrack 1%positive None
                [CombinedTrack 2%positive None [leaf]]] JNone
  ∧ h !! conf leaf = Some ∅
  ∧ rewrite_views "localhost:8989" h [nested_view] !! conf leaf = Some ∅
  ∧ server_of (rewrite_views "localhost:8989" h [nested_view]) leaf = None
  ∧ (display local_backend [nested_view] h).1
    = Ok (Displayed
            [mkView [CombinedTrack 4%positive None
                       [CombinedTrack 5%positive None
                          [PlainTrack 6%positive (Some "T1"%string)]]] JNone]
            [] "localhost:8989")
  ∧ (display local_backend [nested_view] h).2 !! 6%positive = Some ∅
  ∧ server_of (display local_backend [nested_view] h).2
      (PlainTrack 6%positive (Some "T1"%string)) = None.
Proof. repeat split; reflexivity. Qed.

End ComposeFacts.

(** ** [view] *)

Module ViewFacts.
Import ViewFn.

Section Facts.
Context (V : Type) (View_new : V)
  (add_track : V → string → string → string → string → result V)
  (start_server : list tileset_hints → result string).

Lemma add_tracks_filter (api_address : string) (tilesets : list tileset_hints) :
  ∀ curr_view,
    add_tracks V add_track api_address curr_view tilesets
    = add_tracks V add_track api_address curr_view
        (filter (fun ts => hinted ts = true) tilesets).
Proof.
  induction tilesets as [|ts rest IH]; intros curr_view; [done|].
  rewrite filter_cons. destruct (hinted ts) eqn:Hts.
  - rewrite decide_True by done. cbn [add_tracks].
    destruct (add_hinted V add_track api_address curr_view ts); [|done].
    apply IH.
  - rewrite decide_False by done. cbn [add_tracks].
    unfold add_hinted, hinted in *.
    destruct (track_type ts) as [type_|], (track_position ts) as [position|];
      try done; apply IH.
Qed.

(** X21: [view] starts the server with all the tilesets it is given, and
    adds a track for those that have both a track type and a track
    position, in their order; a tileset that lacks one of the two is
    passed over, with no call of [add_track] and no error.  Each call
    gets the address of the server and the id of its tileset. *)
Theorem view_skips_unhinted (tilesets : list tileset_hints) :
  view V View_new add_track start_server tilesets
  = (api_address ← start_server tilesets;
     curr_view ← add_tracks V add_track api_address View_new
                   (filter (fun ts => hinted ts = true) tilesets);
     Ok (curr_view, api_address))
  ∧ ∀ api_address curr_view uuid_ type_ position rest,
      add_tracks V add_track api_address curr_view
        (TilesetHints uuid_ (Some type_) (Some position) :: rest)
      = (curr_view' ← add_track curr_view type_ position api_address uuid_;
         add_tracks V add_track api_address curr_view' rest).
Proof.
  split; [|done]. unfold view.
  destruct (start_server tilesets) as [api_address|e]; [|done].
  simpl. by rewrite add_tracks_filter.
Qed.

End Facts.

Example view_listed :
  view _ [] listed_add_track (fun _ => Ok "localhost:8989"%string)
    [TilesetHints "a" (Some "heatmap"%string) (Some "center"%string);
     TilesetHints "b" None (Some "top"%string);
     TilesetHints "c" (Some "line"%string) None;
     TilesetHints "d" (Some "line"%string) (Some "top"%string)]
  = Ok ([("heatmap", "center", "localhost:8989", "a");
         ("line", "top", "localhost:8989", "d")]%string,
        "localhost:8989"%string).
Proof. reflexivity. Qed.

End ViewFacts.

(** ** Base64: encoding, then decoding *)

Module Base64Facts.
Import Base64 Image.

Lemma all_below_spec (n : Z) (f : Z → bool) :
  all_below n f = true → ∀ v, 0 ≤ v < n → f v = true.
Proof.
  unfold all_below. intros Hall v Hv.
  apply (proj1 (forallb_forall f (seqZ 0 n)) Hall).
  apply list_elem_of_In, elem_of_seqZ. lia.
Qed.

Lemma all_pairs_below_spec (n : Z) (f : Z → Z → bool) :
  all_pairs_below n f = true →
  ∀ a b, 0 ≤ a < n → 0 ≤ b < n → f a b = true.
Proof.
  unfold all_pairs_below. intros Hall a b Ha Hb.
  apply (all_below_spec n (f a)); [|done].
  by apply (all_below_spec n (fun a => all_below n (f a))).
Qed.

(** The alphabet: a character per number below 64, none of them [=] or a
    comma, all of them ASCII, and the decoder's table takes each back. *)
Lemma table_round_trip (v : Z) :
  0 ≤ v < 64 →
  table_a2b_base64 (table_b2a_base64 v) = v
  ∧ (table_b2a_base64 v =? BASE64_PAD) = false
  ∧ (64 <=? v) = false
  ∧ 0 ≤ table_b2a_base64 v < 128
  ∧ table_b2a_base64 v ≠ 44.
Proof.
  intros Hv.
  assert (Hall : all_below 64 (fun v =>
    (table_a2b_base64 (table_b2a_base64 v) =? v)
    && negb (table_b2a_base64 v =? BASE64_PAD)
    && negb (64 <=? v)
    && (0 <=? table_b2a_base64 v) && (table_b2a_base64 v <? 128)
    && negb (table_b2a_base64 v =? 44)) = true) by (vm_compute; reflexivity).
  pose proof (all_below_spec _ _ Hall v Hv) as H.
  repeat (apply andb_prop in H as [H ?]).
  repeat match goal with
         | H : negb _ = true |- _ => apply negb_true_iff in H
         end.
  repeat split; try done; lia.
Qed.

(** The four numbers that three bytes are cut into are below 64. *)
Lemma sextets_below_64 (b0 b1 : Z) :
  0 ≤ b0 < 256 → 0 ≤ b1 < 256 →
  0 ≤ Z.shiftr b0 2 < 64
  ∧ 0 ≤ Z.shiftl (Z.land b0 3) 4 < 64
  ∧ 0 ≤ Z.lor (Z.shiftl (Z.land b0 3) 4) (Z.shiftr b1 4) < 64
  ∧ 0 ≤ Z.shiftl (Z.land b0 15) 2 < 64
  ∧ 0 ≤ Z.lor (Z.shiftl (Z.land b0 15) 2) (Z.shiftr b1 6) < 64
  ∧ 0 ≤ Z.land b0 63 < 64.
Proof.
  intros H0 H1.
  assert (Hall : all_pairs_below 256 (fun b0 b1 =>
    let in_range v := (0 <=? v) && (v <? 64) in
    in_range (Z.shiftr b0 2)
    && in_range (Z.shiftl (Z.land b0 3) 4)
    && in_range (Z.lor (Z.shiftl (Z.land b0 3) 4) (Z.shiftr b1 4))
    && in_range (Z.shiftl (Z.land b0 15) 2)
    && in_range (Z.lor (Z.shiftl (Z.land b0 15) 2) (Z.shiftr b1 6))
    && in_range (Z.land b0 63)) = true) by (vm_compute; reflexivity).
  pose proof (all_pairs_below_spec _ _ Hall b0 b1 H0 H1) as H.
  cbv zeta in H.
  repeat (apply andb_prop in H as [H ?]).
  repeat split; lia.
Qed.

(** What the decoder puts out for the characters of [b0 b1 b2]. *)
Lemma first_byte_back (b0 b1 : Z) :
  0 ≤ b0 < 256 → 0 ≤ b1 < 256 →
  u8 (Z.lor (Z.shiftl (Z.shiftr b0 2) 2)
        (Z.shiftr (Z.lor (Z.shiftl (Z.land b0 3) 4) (Z.shiftr b1 4)) 4)) = b0
  ∧ u8 (Z.lor (Z.shiftl (Z.shiftr b0 2) 2)
          (Z.shiftr (Z.shiftl (Z.land b0 3) 4) 4)) = b0
  ∧ Z.land (Z.lor (Z.shiftl (Z.land b0 3) 4) (Z.shiftr b1 4)) 15
    = Z.shiftr b1 4.
Proof.
  intros H0 H1.
  assert (Hall : all_pairs_below 256 (fun b0 b1 =>
    (u8 (Z.lor (Z.shiftl (Z.shiftr b0 2) 2)
           (Z.shiftr (Z.lor (Z.shiftl (Z.land b0 3) 4) (Z.shiftr b1 4)) 4))
     =? b0)
    && (u8 (Z.lor (Z.shiftl (Z.shiftr b0 2) 2)
              (Z.shiftr (Z.shiftl (Z.land b0 3) 4) 4)) =? b0)
    && (Z.land (Z.lor (Z.shiftl (Z.land b0 3) 4) (Z.shiftr b1 4)) 15
        =? Z.shiftr b1 4)) = true) by (vm_compute; reflexivity).
  pose proof (all_pairs_below_spec _ _ Hall b0 b1 H0 H1) as H.
  repeat (apply andb_prop in H as [H ?]).
  repeat split; lia.
Qed.

Lemma second_byte_back (b1 b2 : Z) :
  0 ≤ b1 < 256 → 0 ≤ b2 < 256 →
  u8 (Z.lor (Z.shiftl (Z.shiftr b1 4) 4)
        (Z.shiftr (Z.lor (Z.shiftl (Z.land b1 15) 2) (Z.shiftr b2 6)) 2)) = b1
  ∧ u8 (Z.lor (Z.shiftl (Z.shiftr b1 4) 4)
          (Z.shiftr (Z.shiftl (Z.land b1 15) 2) 2)) = b1
  ∧ u8 (Z.lor
          (Z.shiftl
             (Z.land (Z.lor (Z.shiftl (Z.land b1 15) 2) (Z.shiftr b2 6)) 3) 6)
          (Z.land b2 63)) = b2.
Proof.
  intros H1 H2.
  assert (Hall : all_pairs_below 256 (fun b1 b2 =>
    (u8 (Z.lor (Z.shiftl (Z.shiftr b1 4) 4)
           (Z.shiftr (Z.lor (Z.shiftl (Z.land b1 15) 2) (Z.shiftr b2 6)) 2))
     =? b1)
    && (u8 (Z.lor (Z.shiftl (Z.shiftr b1 4) 4)
              (Z.shiftr (Z.shiftl (Z.land b1 15) 2) 2)) =? b1)
    && (u8 (Z.lor
              (Z.shiftl
                 (Z.land
                    (Z.lor (Z.shiftl (Z.land b1 15) 2) (Z.shiftr b2 6)) 3) 6)
              (Z.land b2 63)) =? b2)) = true) by (vm_compute; reflexivity).
  pose proof (all_pairs_below_spec _ _ Hall b1 b2 H1 H2) as H.
  repeat (apply andb_prop in H as [H ?]).
  repeat split; lia.
Qed.

(** One character of the alphabet through the decoder's loop. *)
Lemma a2b_loop_alphabet (v : Z) (rest : list Z) (quad_pos leftchar pads : Z)
    (bin_data : list Z) :
  0 ≤ v < 64 →
  a2b_loop (table_b2a_base64 v :: rest) quad_pos leftchar pads bin_data
  = if quad_pos =? 0 then a2b_loop rest 1 v 0 bin_data
    else if quad_pos =? 1 then
      a2b_loop rest 2 (Z.land v 15) 0
        (bin_data ++ [u8 (Z.lor (Z.shiftl leftchar 2) (Z.shiftr v 4))])
    else if quad_pos =? 2 then
      a2b_loop rest 3 (Z.land v 3) 0
        (bin_data ++ [u8 (Z.lor (Z.shiftl leftchar 4) (Z.shiftr v 2))])
    else
      a2b_loop rest 0 0 0
        (bin_data ++ [u8 (Z.lor (Z.shiftl leftchar 6) v)]).
Proof.
  intros Hv. destruct (table_round_trip v Hv) as (Htable & Hpad & Hlt & _).
  cbn [a2b_loop]. rewrite Hpad. cbv zeta. by rewrite Htable, Hlt.
Qed.

Lemma list_ind3 {A} (P : list A → Prop) :
  P [] → (∀ a, P [a]) → (∀ a b, P [a; b]) →
  (∀ a b c l, P l → P (a :: b :: c :: l)) →
  ∀ l, P l.
Proof.
  intros H0 H1 H2 H3. fix IH 1.
  intros [|a [|b [|c l]]]; [done..|]. apply H3, IH.
Qed.

(** The decoder's loop on the encoding of a byte string gives the bytes. *)
Lemma a2b_loop_b2a (bs : list Z) :
  is_bytes bs →
  ∀ out, a2b_loop (b2a_base64 bs) 0 0 0 out = Ok (out ++ bs).
Proof.
  unfold is_bytes.
  induction bs as [|b0|b0 b1|b0 b1 b2 rest IH] using list_ind3; intros Hbs out.
  - simpl. by rewrite app_nil_r.
  - apply Forall_cons in Hbs as [H0 _].
    destruct (sextets_below_64 b0 0 H0) as (Hs0 & Hs1 & _); [lia|].
    destruct (first_byte_back b0 0 H0) as (_ & Hb0 & _); [lia|].
    cbn [b2a_base64]. rewrite !a2b_loop_alphabet by done. simpl.
    by rewrite Hb0.
  - apply Forall_cons in Hbs as [H0 Hbs]. apply Forall_cons in Hbs as [H1 _].
    destruct (sextets_below_64 b0 b1 H0 H1) as (Hs0 & _ & Hs1 & _).
    destruct (sextets_below_64 b1 0 H1) as (_ & _ & _ & Hs2 & _); [lia|].
    destruct (first_byte_back b0 b1 H0 H1) as (Hb0 & _ & Hleft).
    destruct (second_byte_back b1 0 H1) as (_ & Hb1 & _); [lia|].
    cbn [b2a_base64]. rewrite !a2b_loop_alphabet by done. simpl.
    rewrite Hb0, Hleft, Hb1. by rewrite <- app_assoc.
  - apply Forall_cons in Hbs as [H0 Hbs]. apply Forall_cons in Hbs as [H1 Hbs].
    apply Forall_cons in Hbs as [H2 Hbs].
    destruct (sextets_below_64 b0 b1 H0 H1) as (Hs0 & _ & Hs1 & _).
    destruct (sextets_below_64 b1 b2 H1 H2) as (_ & _ & _ & _ & Hs2 & _).
    destruct (sextets_below_64 b2 0 H2) as (_ & _ & _ & _ & _ & Hs3); [lia|].
    destruct (first_byte_back b0 b1 H0 H1) as (Hb0 & _ & Hleft).
    destruct (second_byte_back b1 b2 H1 H2) as (Hb1 & _ & Hb2).
    cbn [b2a_base64]. rewrite !a2b_loop_alphabet by done. simpl.
    rewrite Hb0, Hleft, Hb1, Hb2, IH by done.
    by rewrite <- !app_assoc.
Qed.

Lemma ords_chrs (cs : list Z) :
  Forall (fun c => 0 ≤ c < 256) cs → ords (chrs cs) = cs.
Proof.
  induction 1 as [|c rest Hc _ IH]; [done|].
  simpl. rewrite IH. f_equal.
  rewrite N_ascii_embedding by lia. lia.
Qed.

Lemma b2a_base64_chars (bs : list Z) :
  is_bytes bs →
  Forall (fun c => 0 ≤ c < 128 ∧ c ≠ 44) (b2a_base64 bs).
Proof.
  unfold is_bytes.
  assert (Halpha : ∀ v, 0 ≤ v < 64 →
    0 ≤ table_b2a_base64 v < 128 ∧ table_b2a_base64 v ≠ 44).
  { intros v Hv. by destruct (table_round_trip v Hv) as (_ & _ & _ & ? & ?). }
  assert (Hpad : 0 ≤ BASE64_PAD < 128 ∧ BASE64_PAD ≠ 44) by done.
  induction bs as [|b0|b0 b1|b0 b1 b2 rest IH] using list_ind3; intros Hbs.
  - constructor.
  - apply Forall_cons in Hbs as [H0 _].
    destruct (sextets_below_64 b0 0 H0) as (Hs0 & Hs1 & _); [lia|].
    cbn [b2a_base64]. repeat (constructor; [by auto|]). constructor.
  - apply Forall_cons in Hbs as [H0 Hbs]. apply Forall_cons in Hbs as [H1 _].
    destruct (sextets_below_64 b0 b1 H0 H1) as (Hs0 & _ & Hs1 & _).
    destruct (sextets_below_64 b1 0 H1) as (_ & _ & _ & Hs2 & _); [lia|].
    cbn [b2a_base64]. repeat (constructor; [by auto|]). constructor.
  - apply Forall_cons in Hbs as [H0 Hbs]. apply Forall_cons in Hbs as [H1 Hbs].
    apply Forall_cons in Hbs as [H2 Hbs].
    destruct (sextets_below_64 b0 b1 H0 H1) as (Hs0 & _ & Hs1 & _).
    destruct (sextets_below_64 b1 b2 H1 H2) as (_ & _ & _ & _ & Hs2 & _).
    destruct (sextets_below_64 b2 0 H2) as (_ & _ & _ & _ & _ & Hs3); [lia|].
    cbn [b2a_base64]. repeat (constructor; [by auto|]). by apply IH.
Qed.

Lemma b64decode_b64encode (bs : list Z) :
  is_bytes bs → b64decode (b64encode bs) = Ok bs.
Proof.
  intros Hbs. unfold b64decode, b64encode.
  pose proof (b2a_base64_chars bs Hbs) as Hchars.
  rewrite ords_chrs.
  2: { eapply Forall_impl; [exact Hchars|]. simpl. lia. }
  replace (forallb (fun c => c <? 128) (b2a_base64 bs)) with true.
  - unfold a2b_base64. by rewrite a2b_loop_b2a.
  - symmetry. apply forallb_forall. intros c Hc%list_elem_of_In.
    rewrite Forall_forall in Hchars. apply Z.ltb_lt, (Hchars c Hc).
Qed.

Lemma chrs_without_comma (cs : list Z) :
  Forall (fun c => 0 ≤ c < 128 ∧ c ≠ 44) cs → count_commas (chrs cs) = 0%nat.
Proof.
  induction 1 as [|c rest [Hc Hne] _ IH]; [done|].
  simpl. rewrite IH.
  destruct (Ascii.eqb_spec (ascii_of_N (Z.to_N c)) ",") as [Heq|_]; [|done].
  exfalso. apply Hne.
  apply (f_equal N_of_ascii) in Heq.
  rewrite N_ascii_embedding in Heq by lia.
  change (N_of_ascii ",") with 44%N in Heq. lia.
Qed.

Lemma payload_after_prefix (prefix payload : string) :
  count_commas prefix = 0%nat →
  payload_after_first_comma (prefix +:+ String "," payload) = Some payload.
Proof.
  induction prefix as [|c rest IH]; simpl; [done|].
  destruct (Ascii.eqb c ","); [done|]. apply IH.
Qed.

(** X22: an image that went through base64 comes out as it was.  For
    every byte string, the standard decoder applied to its standard
    encoding gives the bytes back, and the helper, given a prefix without
    a comma, a comma and the encoding (a data URI), writes exactly these
    bytes to the file. *)
Theorem save_base64_round_trip (fs : filesystem) (filename prefix : string)
    (bs : list Z) :
  count_commas prefix = 0%nat →
  is_bytes bs →
  b64decode (b64encode bs) = Ok bs
  ∧ save_b64_image_to_png b64decode fs filename
      (prefix +:+ String "," (b64encode bs))
    = open_wb_write fs filename bs.
Proof.
  intros Hprefix Hbs. split; [by apply b64decode_b64encode|].
  unfold save_b64_image_to_png.
  rewrite (ImageFacts.second_segment _ _
             (payload_after_prefix prefix (b64encode bs) Hprefix)).
  rewrite ImageFacts.before_comma_no_comma.
  - simpl. by rewrite b64decode_b64encode.
  - apply chrs_without_comma. by apply b2a_base64_chars.
Qed.

Example b64encode_png_magic :
  b64encode [137; 80; 78; 71; 13; 10; 26; 10] = "iVBORw0KGgo="%string.
Proof. reflexivity. Qed.

Lemma save_base64_round_trip_witness :
  save_b64_image_to_png b64decode (Filesystem ∅ ∅) "out.png"
    "data:image/png;base64,iVBORw0KGgo="
  = open_wb_write (Filesystem ∅ ∅) "out.png" [137; 80; 78; 71; 13; 10; 26; 10].
Proof.
  apply (save_base64_round_trip (Filesystem ∅ ∅) "out.png"
           "data:image/png;base64" [137; 80; 78; 71; 13; 10; 26; 10]).
  - reflexivity.
  - unfold is_bytes. repeat (constructor; [lia|]). constructor.
Defined.

End Base64Facts.
